(* Verification of the netcode core of goat-shell's 2D platformer:
   the authoritative room step (server PlatformerRoom), the predictive
   client step and reconciliation (client PlatformerScene), and the shared
   physics helpers (shared/lib/physicsUtils).

   Numbers are modelled as exact rationals [Q]; tick counters, which the
   code only ever builds from integers, additions and Math.round, as [Z].
   Where the rounding of JavaScript's doubles decides an integer outcome
   (the fixed time step [1000 / 60], the accumulator loops that count
   fixed steps, the division that gives the tick offset), the double
   operations are modelled exactly: [fl64] rounds a rational to the
   nearest binary64 value, ties to even. *)

From Stdlib Require Import String QArith Qround Qabs Qpower Qcanon ZArith List Sorted Permutation Bool Lia Lqa.
Import ListNotations.

Open Scope Q_scope.

(* ------------------------------------------------------------------ *)
(** * Shared constants (shared/constants) *)

Definition PLAYER_SPEED : Q := 5.
Definition JUMP_FORCE : Q := 15 # 100.
Definition PLAYER_SIZE : Q := 32.
Definition GROUND_THRESHOLD : Q := 2.

(** Boolean comparisons on [Q], as JavaScript's [<] and [<=] on numbers. *)
Definition Qltb (a b : Q) : bool := negb (Qle_bool b a).
Definition Qleb (a b : Q) : bool := Qle_bool a b.

(** JavaScript's [Math.round]: round half up. *)
Definition js_round (x : Q) : Z := Qfloor (x + (1 # 2)).

(* ------------------------------------------------------------------ *)
(** * IEEE 754 binary64 rounding

    A finite double is [m * 2^e] with [|m| < 2^53] and [e >= -1074]; an
    arithmetic operation on doubles returns the exact result rounded to
    the nearest such value, ties to the even [m].  Results beyond the
    largest finite double (which would be infinities) do not arise in
    this program and are not modelled. *)

Definition Qpow2 (e : Z) : Q := Qpower (2 # 1) e.

(** Round to the nearest integer, ties to even. *)
Definition round_half_even (s : Q) : Z :=
  let f := Qfloor s in
  let r := s - inject_Z f in
  if Qltb r (1 # 2) then f
  else if Qltb (1 # 2) r then (f + 1)%Z
  else if Z.even f then f else (f + 1)%Z.

(** [floor(log2 q)] for [q > 0]: [log2 n - log2 d] is it or one more. *)
Definition qlog2 (q : Q) : Z :=
  let k0 := (Z.log2 (Qnum q) - Z.log2 (Zpos (Qden q)))%Z in
  if Qle_bool (Qpow2 k0) q then k0 else (k0 - 1)%Z.

(** The exponent of the last significand bit of a positive [q]: 52 bits
    below its leading bit, but not below the subnormal exponent -1074. *)
Definition binary64_exponent (q : Q) : Z := Z.max (qlog2 q - 52) (-1074).

Definition round_binary64_pos (q : Q) : Q :=
  let e := binary64_exponent q in
  inject_Z (round_half_even (q / Qpow2 e)) * Qpow2 e.

(** The double nearest to [x] (computed on [Qred x], so it depends only
    on the value of [x]). *)
Definition fl64 (x : Q) : Q :=
  let q := Qred x in
  if Qeq_bool q 0 then 0
  else if Qle_bool 0 q then round_binary64_pos q
  else - round_binary64_pos (- q).

(** [FIXED_TIME_STEP = 1000 / 60], the double 16.666666666666668. *)
Definition FIXED_TIME_STEP : Q := fl64 (1000 # 60).

(* ------------------------------------------------------------------ *)
(** * Matter.js bodies and the part of the Matter.js API the code calls

    Every body in this program is an axis-aligned rectangle (players are
    [PLAYER_SIZE] squares, the level is rectangles).  A body carries the
    Matter.js id it received at creation, its centre [position], its
    [velocity], the accumulated [force] and its width and height, from
    which its [bounds] follow. *)

Record Body := mkBody {
  b_id : nat;
  b_x : Q; b_y : Q;
  b_vx : Q; b_vy : Q;
  b_fx : Q; b_fy : Q;
  b_w : Q; b_h : Q
}.

Definition bounds_min_x (b : Body) : Q := b_x b - b_w b / 2.
Definition bounds_max_x (b : Body) : Q := b_x b + b_w b / 2.
Definition bounds_min_y (b : Body) : Q := b_y b - b_h b / 2.
Definition bounds_max_y (b : Body) : Q := b_y b + b_h b / 2.

(** [Matter.Body.setVelocity(body, {x, y})]. *)
Definition setVelocity (b : Body) (vx vy : Q) : Body :=
  {| b_id := b_id b; b_x := b_x b; b_y := b_y b; b_vx := vx; b_vy := vy;
     b_fx := b_fx b; b_fy := b_fy b; b_w := b_w b; b_h := b_h b |}.

(** [Matter.Body.applyForce(body, body.position, {x, y})]: the force is
    added to the accumulated force; applied at the centre it adds no torque. *)
Definition applyForce (b : Body) (fx fy : Q) : Body :=
  {| b_id := b_id b; b_x := b_x b; b_y := b_y b; b_vx := b_vx b; b_vy := b_vy b;
     b_fx := b_fx b + fx; b_fy := b_fy b + fy; b_w := b_w b; b_h := b_h b |}.

(** [Matter.Body.setPosition(body, {x, y})]. *)
Definition setPosition (b : Body) (x y : Q) : Body :=
  {| b_id := b_id b; b_x := x; b_y := y; b_vx := b_vx b; b_vy := b_vy b;
     b_fx := b_fx b; b_fy := b_fy b; b_w := b_w b; b_h := b_h b |}.

(** The collision record returned by [Matter.Collision.collides]: Matter
    orders the pair by body id, [bodyA] being the body with the lower id. *)
Record Collision := mkCollision { bodyA : Body; bodyB : Body }.

(** [Matter.Collision.collides(a, b)]: [null] unless the two rectangles
    overlap (the separating-axis test, for axis-aligned rectangles). *)
Definition collides (a b : Body) : option Collision :=
  if Qltb (bounds_min_x a) (bounds_max_x b) && Qltb (bounds_min_x b) (bounds_max_x a)
     && Qltb (bounds_min_y a) (bounds_max_y b) && Qltb (bounds_min_y b) (bounds_max_y a)
  then Some (if Nat.ltb (b_id a) (b_id b) then mkCollision a b else mkCollision b a)
  else None.

(** [Matter.Query.ray(bodies, start, end)] for the vertical rays the code
    casts (same [x] at both ends, [y0 <= y1]): the bodies hit by the
    (zero-width) segment. *)
Definition ray_hit (x y0 y1 : Q) (g : Body) : bool :=
  Qltb (bounds_min_x g) x && Qltb x (bounds_max_x g)
  && Qltb (bounds_min_y g) y1 && Qltb y0 (bounds_max_y g).

Definition query_ray (gs : list Body) (x y0 y1 : Q) : list Body :=
  filter (ray_hit x y0 y1) gs.

(* ------------------------------------------------------------------ *)
(** * Shared helpers (shared/lib/physicsUtils) *)

(** The collision loop of [isGrounded]: the first ground body that collides
    with the player as [bodyB] and has the player's bottom within
    [GROUND_THRESHOLD] of its top makes it return [true]. *)
Fixpoint isGrounded_contacts (body : Body) (groundBodies : list Body) : bool :=
  match groundBodies with
  | [] => false
  | groundBody :: rest =>
      match collides body groundBody with
      | Some c =>
          if Nat.eqb (b_id (bodyB c)) (b_id groundBody) then
            let playerBottom := b_y body + PLAYER_SIZE / 2 in
            let groundTop := b_y groundBody
                             - (bounds_max_y groundBody - bounds_min_y groundBody) / 2 in
            if Qleb playerBottom (groundTop + GROUND_THRESHOLD) then true
            else isGrounded_contacts body rest
          else isGrounded_contacts body rest
      | None => isGrounded_contacts body rest
      end
  end.

(** [isGrounded(body, groundBodies)]. *)
Definition isGrounded (body : Body) (groundBodies : list Body) : bool :=
  if isGrounded_contacts body groundBodies then true
  else
    let rayCollisions := query_ray groundBodies (b_x body) (b_y body)
                           (b_y body + PLAYER_SIZE / 2 + 2) in
    if Nat.ltb 0 (length rayCollisions) then true
    else Qltb (Qabs (b_vy body)) (1 # 10).

(** [applyJump(body, jumpForce)]. *)
Definition applyJump (body : Body) (jumpForce : Q) : Body :=
  applyForce body 0 (- jumpForce).

(** [InputData] (shared/types): [{left, right, jump, tick}]. *)
Record InputData := mkInput { left : bool; right : bool; jump : bool; tick : Z }.

(** The [velocityX] block, written the same way in the room's [fixedTick]
    and in the client's [applyInput]:
    [let velocityX = 0; if (input.left) velocityX = -PLAYER_SPEED;
     else if (input.right) velocityX = PLAYER_SPEED;]. *)
Definition velocityX_of (input : InputData) : Q :=
  if left input then - PLAYER_SPEED
  else if right input then PLAYER_SPEED
  else 0.

(* ------------------------------------------------------------------ *)
(** * The authoritative room (server/src/rooms/PlatformerRoom.ts) *)

(** A [Player] schema entry.  [body] is the Matter.js body of the player;
    [player.body] and [playerBodies[sessionId]] are the same object (both
    set in [onJoin]), so it is stored once, here. *)
Record Player := mkPlayer {
  p_x : Q; p_y : Q; p_vx : Q; p_vy : Q;
  p_tick : Z;
  p_isGrounded : bool;
  lastProcessedTick : Z;
  inputQueue : list InputData;
  body : Body
}.

Definition set_inputQueue (p : Player) (q : list InputData) : Player :=
  mkPlayer (p_x p) (p_y p) (p_vx p) (p_vy p) (p_tick p) (p_isGrounded p)
           (lastProcessedTick p) q (body p).

(** [player.inputQueue.sort((a, b) => a.tick - b.tick)]: Array.prototype.sort
    is stable, so the result is the unique stable sort by [tick], computed
    here by insertion (an element goes before the first element whose tick
    is not smaller, keeping equal ticks in their original order). *)
Fixpoint insert_by_tick (x : InputData) (l : list InputData) : list InputData :=
  match l with
  | [] => [x]
  | y :: ys => if Z.leb (tick x) (tick y) then x :: y :: ys else y :: insert_by_tick x ys
  end.

Definition sort_by_tick (l : list InputData) : list InputData :=
  fold_right insert_by_tick [] l.

(** The drain loop
    [while (queue.length > 0 && queue[0].tick <= currentTick) { ... }]:
    each drained input sets the horizontal velocity (keeping the vertical
    one), applies the jump when [input.jump] and the grounded flag computed
    before the loop, and stamps [lastProcessedTick] with its tick.  Returns
    the remaining queue, the body and [lastProcessedTick]. *)
Fixpoint drain (currentTick : Z) (grounded : bool) (queue : list InputData)
    (b : Body) (lpt : Z) : list InputData * Body * Z :=
  match queue with
  | [] => ([], b, lpt)
  | input :: rest =>
      if Z.leb (tick input) currentTick then
        let b1 := setVelocity b (velocityX_of input) (b_vy b) in
        let b2 := if jump input && grounded then applyJump b1 JUMP_FORCE else b1 in
        drain currentTick grounded rest b2 (tick input)
      else (queue, b, lpt)
  end.

(** The queue clean-up: above 20 entries, keep the inputs with
    [tick > currentTick - 10]. *)
Definition cleanup_queue (currentTick : Z) (q : list InputData) : list InputData :=
  if Nat.ltb 20 (length q)
  then filter (fun input => Z.ltb (currentTick - 10) (tick input)) q
  else q.

(** The body of the first [forEach] of [fixedTick] for one player, with the
    room's (already incremented) [currentTick] and [groundBodies]. *)
Definition processPlayer (currentTick : Z) (groundBodies : list Body) (p : Player) : Player :=
  let g := isGrounded (body p) groundBodies in
  let '(q, b, lpt) := drain currentTick g (sort_by_tick (inputQueue p)) (body p)
                           (lastProcessedTick p) in
  mkPlayer (p_x p) (p_y p) (p_vx p) (p_vy p) (p_tick p) g lpt
           (cleanup_queue currentTick q) b.

(** Copy the body state into the schema after the physics update (second
    [forEach]). *)
Definition writeBack (currentTick : Z) (p : Player) (b : Body) : Player :=
  mkPlayer (b_x b) (b_y b) (b_vx b) (b_vy b) currentTick (p_isGrounded p)
           (lastProcessedTick p) (inputQueue p) b.

(** The room state the step reads and writes.  [players] is the MapSchema,
    in insertion (join) order. *)
Record Room := mkRoom {
  currentTick : Z;
  players : list (string * Player);
  ground : Body;
  platforms : list Body
}.

Definition groundBodies (r : Room) : list Body := ground r :: platforms r.

Definition set_players (r : Room) (ps : list (string * Player)) : Room :=
  mkRoom (currentTick r) ps (ground r) (platforms r).

Fixpoint players_get (sid : string) (ps : list (string * Player)) : option Player :=
  match ps with
  | [] => None
  | (k, p) :: rest => if String.eqb k sid then Some p else players_get sid rest
  end.

Fixpoint players_update (sid : string) (f : Player -> Player)
    (ps : list (string * Player)) : list (string * Player) :=
  match ps with
  | [] => []
  | (k, p) :: rest =>
      if String.eqb k sid then (k, f p) :: rest else (k, p) :: players_update sid f rest
  end.

(** The handler [this.onMessage(0, (client, input) => ...)]. *)
Definition onMessage0 (r : Room) (sessionId : string) (input : InputData) : Room :=
  match players_get sessionId (players r) with
  | Some player =>
      set_players r (players_update sessionId
                       (fun p => set_inputQueue p (inputQueue p ++ [input])) (players r))
  | None => r
  end.

Section RoomStep.

(** [Matter.Engine.update(engine, timeStep)], an external function of the
    static bodies and the dynamic bodies of the world: it returns the
    dynamic bodies (the players' bodies, in the order they were added,
    which is the join order of [players]) after one integration step. *)
Variable engine_update : Q -> list Body -> list Body -> list Body.

Fixpoint writeBackAll (currentTick : Z) (ps : list (string * Player)) (bs : list Body)
    : list (string * Player) :=
  match ps, bs with
  | (sid, p) :: ps', b :: bs' => (sid, writeBack currentTick p b) :: writeBackAll currentTick ps' bs'
  | _, _ => ps
  end.

(** [fixedTick(timeStep)]. *)
Definition fixedTick (timeStep : Q) (r : Room) : Room :=
  let cur := (currentTick r + 1)%Z in
  let ps := map (fun '(sid, p) => (sid, processPlayer cur (groundBodies r) p)) (players r) in
  let bs := engine_update timeStep (groundBodies r) (map (fun '(_, p) => body p) ps) in
  mkRoom cur (writeBackAll cur ps bs) (ground r) (platforms r).

End RoomStep.

(* ------------------------------------------------------------------ *)
(** * The predictive client (client/src/scenes/PlatformerScene.ts)

    [cs_player] is the Matter.js body of [currentPlayer] ([None] before the
    local player is added).  The sprite's [x] and [y] are read as the
    position of its body. *)

Record ClientState := mkClient {
  cs_player : option Body;
  cs_groundBodies : list Body;
  inputBuffer : list InputData;
  cs_currentTick : Z;
  lastReconciledTick : Z;
  rtt : Q;
  serverTickOffset : Z;
  lastPingTime : Q
}.

Definition set_player (cs : ClientState) (b : Body) : ClientState :=
  mkClient (Some b) (cs_groundBodies cs) (inputBuffer cs) (cs_currentTick cs)
           (lastReconciledTick cs) (rtt cs) (serverTickOffset cs) (lastPingTime cs).

Definition set_inputBuffer (cs : ClientState) (buf : list InputData) : ClientState :=
  mkClient (cs_player cs) (cs_groundBodies cs) buf (cs_currentTick cs)
           (lastReconciledTick cs) (rtt cs) (serverTickOffset cs) (lastPingTime cs).

(** [isPlayerGrounded()]. *)
Definition isPlayerGrounded (cs : ClientState) : bool :=
  match cs_player cs with
  | None => false
  | Some b =>
      match cs_groundBodies cs with
      | [] => false
      | _ =>
          let rayLength := PLAYER_SIZE / 2 + 2 in
          let collisions := query_ray (cs_groundBodies cs) (b_x b) (b_y b) (b_y b + rayLength) in
          Nat.ltb 0 (length collisions) || Qltb (Qabs (b_vy b)) (1 # 10)
      end
  end.

(** [applyInput(input)]. *)
Definition applyInput (cs : ClientState) (input : InputData) : ClientState :=
  match cs_player cs with
  | None => cs
  | Some b =>
      let isPlayerGrounded := isPlayerGrounded cs in
      let b1 := setVelocity b (velocityX_of input) (b_vy b) in
      let b2 := if jump input && isPlayerGrounded then applyJump b1 JUMP_FORCE else b1 in
      set_player cs b2
  end.

(** [fixedTick(time, delta)], with the key states read this tick.  Sending
    the payload to the room does not change the client state. *)
Definition client_fixedTick (cs : ClientState) (l r j : bool) : ClientState :=
  let cur := (cs_currentTick cs + 1)%Z in
  let adjustedTick := (cur + serverTickOffset cs)%Z in
  let inputPayload := mkInput l r j adjustedTick in
  let cs1 := mkClient (cs_player cs) (cs_groundBodies cs) (inputBuffer cs ++ [inputPayload])
               cur (lastReconciledTick cs) (rtt cs) (serverTickOffset cs) (lastPingTime cs) in
  let cs2 := applyInput cs1 inputPayload in
  if Nat.ltb 100 (length (inputBuffer cs2)) then
    let cutoffTick := (adjustedTick - 50)%Z in
    set_inputBuffer cs2 (filter (fun input => Z.ltb cutoffTick (tick input)) (inputBuffer cs2))
  else cs2.

(** The handler of ["pong"] set up in [setupRTTCalculation], at time [endTime]:
    [rtt = endTime - lastPingTime] and
    [serverTickOffset = Math.round(rtt / (2 * FIXED_TIME_STEP))], each
    operation rounded to a double. *)
Definition onPong (cs : ClientState) (endTime : Q) : ClientState :=
  let rtt' := fl64 (endTime - lastPingTime cs) in
  mkClient (cs_player cs) (cs_groundBodies cs) (inputBuffer cs) (cs_currentTick cs)
           (lastReconciledTick cs) rtt' (js_round (fl64 (rtt' / fl64 (2 * FIXED_TIME_STEP))))
           (lastPingTime cs).

(** [Phaser.Math.Linear(p0, p1, t)]. *)
Definition Linear (p0 p1 t : Q) : Q := (p1 - p0) * t + p0.

(** The square of [Phaser.Math.Distance.Between(x1, y1, x2, y2)]; the code
    compares the distance with 30, i.e. its square with 900. *)
Definition distance_sq (x1 y1 x2 y2 : Q) : Q := (x2 - x1) * (x2 - x1) + (y2 - y1) * (y2 - y1).

(** [lerpFactor = distance > 30 ? 0.5 : 0.2]. *)
Definition lerpFactor_of (d2 : Q) : Q := if Qltb 900 d2 then 1 # 2 else 1 # 5.

(** [reconcileWithServer(serverPlayer)]. *)
Definition reconcileWithServer (cs : ClientState) (serverPlayer : Player) : ClientState :=
  match cs_player cs with
  | None => cs
  | Some b =>
      let lerpFactor := lerpFactor_of (distance_sq (b_x b) (b_y b) (p_x serverPlayer) (p_y serverPlayer)) in
      let b1 := setPosition b (Linear (b_x b) (p_x serverPlayer) lerpFactor)
                              (Linear (b_y b) (p_y serverPlayer) lerpFactor) in
      let b2 := setVelocity b1 (Linear (b_vx b1) (p_vx serverPlayer) lerpFactor)
                               (Linear (b_vy b1) (p_vy serverPlayer) lerpFactor) in
      let buf := filter (fun input => Z.ltb (lastProcessedTick serverPlayer) (tick input))
                        (inputBuffer cs) in
      let cs1 := set_inputBuffer (set_player cs b2) buf in
      let cs2 := fold_left applyInput buf cs1 in
      mkClient (cs_player cs2) (cs_groundBodies cs2) (inputBuffer cs2) (cs_currentTick cs2)
               (lastProcessedTick serverPlayer) (rtt cs2) (serverTickOffset cs2)
               (lastPingTime cs2)
  end.

(** The [onChange] listener of the local player's schema entry. *)
Definition onLocalPlayerChange (cs : ClientState) (player : Player) : ClientState :=
  if Z.ltb (lastReconciledTick cs) (lastProcessedTick player)
  then reconcileWithServer cs player else cs.

(* ------------------------------------------------------------------ *)
(** * Comparing the two step logics *)

(** The body a player ends with after the input part of the room's
    [fixedTick] (grounded check, sort, drain) when its queue holds [cmds]. *)
Definition server_input_body (cur : Z) (gs : list Body) (b : Body) (lpt : Z)
    (cmds : list InputData) : Body :=
  let '(_, b', _) := drain cur (isGrounded b gs) (sort_by_tick cmds) b lpt in b'.

(** The body the client predicts after [applyInput] on each of [cmds] in
    order, from body [b] on level [gs]. *)
Definition client_input_body (gs : list Body) (b : Body) (cmds : list InputData) : option Body :=
  cs_player (fold_left applyInput cmds (mkClient (Some b) gs [] 0 0 0 0 0)).

(** A concrete level (the ground of LEVEL_CONFIG's shape) and a player
    body at the spawn point, created after the level. *)
Definition ground0 : Body := mkBody 1 400 590 0 0 0 0 800 20.
Definition platform1 : Body := mkBody 2 200 400 0 0 0 0 200 20.
Definition platform2 : Body := mkBody 3 500 300 0 0 0 0 200 20.
Definition level0 : list Body := [ground0; platform1; platform2].
Definition spawn_body : Body := mkBody 4 50 500 0 0 0 0 PLAYER_SIZE PLAYER_SIZE.

(** One input applied to a body, with the grounded flag [g]: the common
    shape of the drain loop's body and of [applyInput]. *)
Definition step_body (g : bool) (input : InputData) (b : Body) : Body :=
  let b1 := setVelocity b (velocityX_of input) (b_vy b) in
  if jump input && g then applyJump b1 JUMP_FORCE else b1.

(** A command sequence in ascending tick order. *)
Definition ticks_sorted (cmds : list InputData) : Prop :=
  Sorted (fun a b => (tick a <= tick b)%Z) cmds.

(** The drain [while] loop as a big-step relation: stop on an empty
    queue, stop when the head is in the future, otherwise apply the head
    and continue. *)
Inductive drain_rel (cur : Z) (g : bool)
  : list InputData -> Body -> Z -> list InputData * Body * Z -> Prop :=
| drain_empty b lpt : drain_rel cur g [] b lpt ([], b, lpt)
| drain_future input rest b lpt :
    (cur < tick input)%Z -> drain_rel cur g (input :: rest) b lpt (input :: rest, b, lpt)
| drain_take input rest b lpt out :
    (tick input <= cur)%Z ->
    drain_rel cur g rest (step_body g input b) (tick input) out ->
    drain_rel cur g (input :: rest) b lpt out.

(** One player's part of a room step, relationally. *)
Definition player_rel (cur : Z) (gs : list Body) (p p' : Player) : Prop :=
  exists q b lpt,
    drain_rel cur (isGrounded (body p) gs) (sort_by_tick (inputQueue p)) (body p)
              (lastProcessedTick p) (q, b, lpt)
    /\ p' = mkPlayer (p_x p) (p_y p) (p_vx p) (p_vy p) (p_tick p)
                     (isGrounded (body p) gs) lpt (cleanup_queue cur q) b.

(** A room step, relationally: every player steps, then the physics
    update and the write-back. *)
Definition step_rel (engine_update : Q -> list Body -> list Body -> list Body)
    (timeStep : Q) (r r' : Room) : Prop :=
  let cur := (currentTick r + 1)%Z in
  exists ps,
    Forall2 (fun sp sp' => fst sp = fst sp' /\ player_rel cur (groundBodies r) (snd sp) (snd sp'))
            (players r) ps
    /\ r' = mkRoom cur (writeBackAll cur ps
                          (engine_update timeStep (groundBodies r) (map (fun sp => body (snd sp)) ps)))
                   (ground r) (platforms r).

(** What reaches the room: an input message from a session, or a fixed
    step of the simulation interval. *)
Inductive RoomEvent := EvInput (sessionId : string) (input : InputData) | EvTick.

Inductive run_rel (engine_update : Q -> list Body -> list Body -> list Body) (timeStep : Q)
  : Room -> list RoomEvent -> Room -> Prop :=
| run_nil r : run_rel engine_update timeStep r [] r
| run_input r sid input evs r' :
    run_rel engine_update timeStep (onMessage0 r sid input) evs r' ->
    run_rel engine_update timeStep r (EvInput sid input :: evs) r'
| run_tick r r1 evs r' :
    step_rel engine_update timeStep r r1 ->
    run_rel engine_update timeStep r1 evs r' ->
    run_rel engine_update timeStep r (EvTick :: evs) r'.

(** The same runs as a function. *)
Fixpoint run (engine_update : Q -> list Body -> list Body -> list Body) (timeStep : Q)
    (r : Room) (evs : list RoomEvent) : Room :=
  match evs with
  | [] => r
  | EvInput sid input :: evs' => run engine_update timeStep (onMessage0 r sid input) evs'
  | EvTick :: evs' => run engine_update timeStep (fixedTick engine_update timeStep r) evs'
  end.

(** A room after one join at the spawn point (as [onJoin] leaves it), on
    the level of [level0], and an engine that leaves bodies in place. *)
Definition spawn_player : Player := mkPlayer 50 500 0 0 0 false 0 [] spawn_body.
Definition room0 : Room := mkRoom 0 [("a"%string, spawn_player)] ground0 [platform1; platform2].
Definition still_engine (timeStep : Q) (statics dynamics : list Body) : list Body := dynamics.

(** The room of [room0] nine ticks later, whose player has processed the
    input of tick 5. *)
Definition room9 : Room :=
  mkRoom 9 [("a"%string, mkPlayer 50 500 0 0 9 true 5 [] spawn_body)] ground0 [platform1; platform2].

(** The inputs the drain loop takes from the front of [queue], in order. *)
Fixpoint drained (currentTick : Z) (queue : list InputData) : list InputData :=
  match queue with
  | [] => []
  | input :: rest => if Z.leb (tick input) currentTick then input :: drained currentTick rest else []
  end.

(** Four inputs with ticks 5, 2, 9, 2; the two of tick 2 differ. *)
Definition c5 : InputData := mkInput false true false 5.
Definition c2a : InputData := mkInput true false false 2.
Definition c9 : InputData := mkInput false false true 9.
Definition c2b : InputData := mkInput false true false 2.
Definition room8 : Room := mkRoom 8 [("a"%string, spawn_player)] ground0 [platform1; platform2].
Definition enqueue_5292 : list RoomEvent :=
  [EvInput "a" c5; EvInput "a" c2a; EvInput "a" c9; EvInput "a" c2b].

(** A predicted body 40 units left of the authoritative position. *)
Definition client40 : ClientState :=
  mkClient (Some (mkBody 4 0 500 0 0 0 0 PLAYER_SIZE PLAYER_SIZE)) level0 [] 1 0 0 0 0.
Definition server40 (lpt : Z) : Player := mkPlayer 40 500 0 0 lpt true lpt [] spawn_body.

(** A body at the apex of a jump: 200 units above the ground, no vertical
    speed. *)
Definition apex_body : Body := mkBody 4 50 300 5 0 0 0 PLAYER_SIZE PLAYER_SIZE.

(* ------------------------------------------------------------------ *)
(** * Room lifecycle and the simulation interval (PlatformerRoom.ts) *)

Definition SPAWN_X : Q := 50.
Definition SPAWN_Y : Q := 500.

(** [createPlayerBody(x, y, options)]: a [PLAYER_SIZE] square at rest at
    [(x, y)]; [newId] is the id Matter.js gives the new body.  (Friction,
    restitution and mass are not part of the body state modelled here.) *)
Definition createPlayerBody (newId : nat) (x y : Q) : Body :=
  mkBody newId x y 0 0 0 0 PLAYER_SIZE PLAYER_SIZE.

(** [applyHorizontalMovement(body, direction, speed)] of physicsUtils
    (direction -1 for left, 0 for none, 1 for right). *)
Definition applyHorizontalMovement (body : Body) (direction speed : Q) : Body :=
  setVelocity body (direction * speed) (b_vy body).

(** [MapSchema.set(key, value)]: replaces the value of an existing key in
    place, otherwise appends the entry. *)
Fixpoint players_set (sid : string) (p : Player) (ps : list (string * Player))
    : list (string * Player) :=
  match ps with
  | [] => [(sid, p)]
  | (k, q) :: rest => if String.eqb k sid then (k, p) :: rest else (k, q) :: players_set sid p rest
  end.

(** [MapSchema.delete(key)]. *)
Definition players_delete (sid : string) (ps : list (string * Player)) : list (string * Player) :=
  filter (fun kp => negb (String.eqb (fst kp) sid)) ps.

(** [onJoin(client, options)], the new body getting the id [newId]. *)
Definition onJoin (r : Room) (sessionId : string) (newId : nat) : Room :=
  let player := mkPlayer SPAWN_X SPAWN_Y 0 0 (currentTick r) false 0 []
                         (createPlayerBody newId SPAWN_X SPAWN_Y) in
  set_players r (players_set sessionId player (players r)).

(** [onLeave(client, consented)]: the body leaves the world with the
    player entry (the world's player bodies are the entries' bodies). *)
Definition onLeave (r : Room) (sessionId : string) : Room :=
  set_players r (players_delete sessionId (players r)).

(** The accumulator loop
    [while (elapsedTime >= fixedTimeStep) { elapsedTime -= fixedTimeStep; tick(); }],
    shared by the room's simulation interval and the client's [update]; the
    subtraction is rounded to a double.  [fuel] bounds the number of rounds;
    [fixed_loop_run] gives it [floor(2 * elapsedTime / fixedTimeStep) + 1],
    more than the loop runs as long as each rounding error stays below half
    a step. *)
Fixpoint fixed_loop {S : Type} (fuel : nat) (fixedTimeStep : Q) (tickf : S -> S)
    (elapsedTime : Q) (s : S) : Q * S :=
  match fuel with
  | O => (elapsedTime, s)
  | Datatypes.S n =>
      if Qle_bool fixedTimeStep elapsedTime
      then fixed_loop n fixedTimeStep tickf (fl64 (elapsedTime - fixedTimeStep)) (tickf s)
      else (elapsedTime, s)
  end.

Definition fixed_loop_run {S : Type} (fixedTimeStep : Q) (tickf : S -> S)
    (elapsedTime : Q) (s : S) : Q * S :=
  fixed_loop (Z.to_nat (Qfloor (2 * elapsedTime / fixedTimeStep)) + 1)
             fixedTimeStep tickf elapsedTime s.

(** The callback of [setSimulationInterval]: [elapsedTime += deltaTime]
    (rounded to a double), then the fixed ticks. *)
Definition simulationInterval (engine_update : Q -> list Body -> list Body -> list Body)
    (elapsedTime : Q) (r : Room) (deltaTime : Q) : Q * Room :=
  fixed_loop_run FIXED_TIME_STEP (fixedTick engine_update FIXED_TIME_STEP)
                 (fl64 (elapsedTime + deltaTime)) r.

(* ------------------------------------------------------------------ *)
(** * Client frame update and remote entities (PlatformerScene.ts) *)

(** [update(time, delta)] with the key states of this frame: nothing before
    the local player exists, otherwise the fixed client ticks.  The
    scene's [elapsedTime] is returned beside the state. *)
Definition client_update (elapsedTime : Q) (cs : ClientState) (delta : Q) (l r j : bool)
    : Q * ClientState :=
  match cs_player cs with
  | None => (elapsedTime, cs)
  | Some _ => fixed_loop_run FIXED_TIME_STEP (fun c => client_fixedTick c l r j)
                             (fl64 (elapsedTime + delta)) cs
  end.

(** A remote player's sprite: its displayed position and the data
    [serverX]/[serverY] ([None] while never set). *)
Record Entity := mkEntity { e_x : Q; e_y : Q; serverX : option Q; serverY : option Q }.


(** The [onChange] listener of a remote player: [setData('serverX', ...)]
    and [setData('serverY', ...)]. *)
Definition onRemotePlayerChange (ents : list (string * Entity)) (sessionId : string)
    (player : Player) : list (string * Entity) :=
  map (fun '(sid, e) =>
         if String.eqb sid sessionId
         then (sid, mkEntity (e_x e) (e_y e) (Some (p_x player)) (Some (p_y player)))
         else (sid, e)) ents.

(** The [onRemove] listener: the entity, if any, is destroyed and deleted. *)
Definition onRemovePlayer (ents : list (string * Entity)) (sessionId : string)
    : list (string * Entity) :=
  filter (fun ke => negb (String.eqb (fst ke) sessionId)) ents.

(* ================================================================== *)
(** * Properties *)

(** ** Doubles: rounding error of [fl64] *)

Lemma Qltb_true (a b : Q) : Qltb a b = true <-> a < b.
Proof.
  unfold Qltb. rewrite negb_true_iff. split.
  - intros H. apply Qnot_le_lt. intros H'. apply Qle_bool_iff in H'. congruence.
  - intros H. destruct (Qle_bool b a) eqn:E; [|reflexivity].
    apply Qle_bool_iff in E. exfalso. apply (Qlt_not_le a b H E).
Qed.

Lemma Qltb_false (a b : Q) : Qltb a b = false <-> b <= a.
Proof.
  unfold Qltb. rewrite negb_false_iff. apply Qle_bool_iff.
Qed.

Lemma round_half_even_error (s : Q) :
  Qabs (inject_Z (round_half_even s) - s) <= 1 # 2.
Proof.
  unfold round_half_even.
  pose proof (Qfloor_le s) as H1. pose proof (Qlt_floor s) as H2.
  rewrite inject_Z_plus in H2. change (inject_Z 1) with 1 in H2.
  set (f := Qfloor s) in *.
  apply Qabs_Qle_condition.
  destruct (Qltb (s - inject_Z f) (1 # 2)) eqn:E1.
  - apply Qltb_true in E1. split; lra.
  - apply Qltb_false in E1.
    destruct (Qltb (1 # 2) (s - inject_Z f)) eqn:E2.
    + apply Qltb_true in E2. rewrite inject_Z_plus. change (inject_Z 1) with 1. split; lra.
    + apply Qltb_false in E2. destruct (Z.even f).
      * split; lra.
      * rewrite inject_Z_plus. change (inject_Z 1) with 1. split; lra.
Qed.

Lemma round_half_even_nonneg (s : Q) : 0 <= s -> (0 <= round_half_even s)%Z.
Proof.
  intros Hs. assert (H : (0 <= Qfloor s)%Z).
  { change 0%Z with (Qfloor 0). apply Qfloor_resp_le. exact Hs. }
  unfold round_half_even.
  destruct (Qltb _ _); [exact H|]. destruct (Qltb _ _); [lia|]. destruct (Z.even _); lia.
Qed.

Lemma Qpow2_pos (e : Z) : 0 < Qpow2 e.
Proof. apply Qpower_0_lt. reflexivity. Qed.

Lemma Qpow2_plus (a b : Z) : Qpow2 (a + b) == Qpow2 a * Qpow2 b.
Proof. apply Qpower_plus. discriminate. Qed.

Lemma Qpow2_le (a b : Z) : (a <= b)%Z -> Qpow2 a <= Qpow2 b.
Proof.
  intros H. replace b with (a + (b - a))%Z by lia. rewrite Qpow2_plus.
  assert (1 <= Qpow2 (b - a)).
  { unfold Qpow2. apply Qpower_1_le; [|lia]. unfold Qle; simpl; lia. }
  pose proof (Qpow2_pos a). nra.
Qed.

Lemma Qpow2_Z (n : Z) : (0 <= n)%Z -> Qpow2 n == inject_Z (2 ^ n).
Proof. intros H. unfold Qpow2. rewrite Zpower_Qpower by exact H. reflexivity. Qed.

(** [qlog2 q] is a lower bound of [log2 q]. *)
Lemma qlog2_le (q : Q) : 0 < q -> Qpow2 (qlog2 q) <= q.
Proof.
  intros Hq. unfold qlog2.
  destruct (Qle_bool (Qpow2 _) q) eqn:E; [apply Qle_bool_iff; exact E|].
  destruct q as [n d]. cbn [Qnum Qden] in *.
  assert (Hn : (0 < n)%Z).
  { unfold Qlt in Hq. simpl in Hq. lia. }
  pose proof (Z.log2_spec n Hn) as [Hn1 _].
  pose proof (Z.log2_spec (Zpos d) eq_refl) as [_ Hd2].
  pose proof (Z.log2_nonneg n). pose proof (Z.log2_nonneg (Zpos d)).
  set (ln := Z.log2 n) in *. set (ld := Z.log2 (Zpos d)) in *.
  replace (ln - ld - 1)%Z with (ln + - (Z.succ ld))%Z by lia.
  rewrite Qpow2_plus. unfold Qpow2 at 2. rewrite Qpower_opp. fold (Qpow2 (Z.succ ld)).
  rewrite !Qpow2_Z by lia. rewrite Qmake_Qdiv.
  set (A := (2 ^ ln)%Z) in *. set (B := (2 ^ Z.succ ld)%Z) in *.
  assert (HB : (0 < B)%Z) by lia.
  apply Qle_shift_div_l; [unfold Qlt; simpl; lia|].
  rewrite Qmult_comm, Qmult_assoc.
  apply Qle_shift_div_r; [unfold Qlt; simpl; lia|].
  rewrite <- !inject_Z_mult. rewrite <- Zle_Qle. nia.
Qed.

(** Rounding a positive rational to binary64 errs by at most half a unit
    in the last place: a relative [2^-53], or [2^-1075] among
    subnormals. *)
Lemma round_binary64_pos_error (q : Q) :
  0 < q -> Qabs (round_binary64_pos q - q) <= q * Qpow2 (-53) + Qpow2 (-1075).
Proof.
  intros Hq. unfold round_binary64_pos, binary64_exponent.
  set (e := Z.max (qlog2 q - 52) (-1074)).
  pose proof (Qpow2_pos e) as He.
  pose proof (round_half_even_error (q / Qpow2 e)) as Hr.
  set (m := inject_Z (round_half_even (q / Qpow2 e))) in *.
  assert (Hd : m * Qpow2 e - q == (m - q / Qpow2 e) * Qpow2 e).
  { field. apply Qnot_eq_sym, Qlt_not_eq. exact He. }
  rewrite Hd, Qabs_Qmult, (Qabs_pos (Qpow2 e)) by (apply Qlt_le_weak; exact He).
  assert (Hb : Qpow2 e <= q * Qpow2 (-52) + Qpow2 (-1074)).
  { pose proof (Qpow2_pos (-1074)). pose proof (Qpow2_pos (-52)).
    destruct (Z.max_spec (qlog2 q - 52) (-1074)) as [[_ E]|[_ E]]; fold e in E; rewrite E.
    - nra.
    - pose proof (qlog2_le q Hq).
      replace (qlog2 q - 52)%Z with (qlog2 q + -52)%Z by lia. rewrite Qpow2_plus.
      pose proof (Qpow2_pos (qlog2 q)). nra. }
  assert (Qpow2 (-52) == 2 * Qpow2 (-53)) by reflexivity.
  assert (Qpow2 (-1074) == 2 * Qpow2 (-1075)) by reflexivity.
  pose proof (Qabs_nonneg (m - q / Qpow2 e)).
  nra.
Qed.

Lemma fl64_compat (x y : Q) : x == y -> fl64 x = fl64 y.
Proof. intros H. unfold fl64. rewrite (Qred_complete x y H). reflexivity. Qed.

(** The rounding error of [fl64] on a positive rational. *)
Lemma fl64_error (x : Q) :
  0 < x -> Qabs (fl64 x - x) <= x * Qpow2 (-53) + Qpow2 (-1075).
Proof.
  intros Hx. unfold fl64.
  pose proof (Qred_correct x) as Hr.
  assert (Hq : 0 < Qred x) by (rewrite Hr; exact Hx).
  destruct (Qeq_bool (Qred x) 0) eqn:E1.
  { apply Qeq_bool_iff in E1. rewrite E1 in Hq. discriminate. }
  destruct (Qle_bool 0 (Qred x)) eqn:E2.
  2: { assert (Qle_bool 0 (Qred x) = true) by (apply Qle_bool_iff, Qlt_le_weak; exact Hq).
       congruence. }
  set (y := Qred x) in *. rewrite <- Hr. apply round_binary64_pos_error. exact Hq.
Qed.

Lemma fl64_nonneg (x : Q) : 0 <= x -> 0 <= fl64 x.
Proof.
  intros Hx. unfold fl64.
  assert (Hq : 0 <= Qred x) by (rewrite Qred_correct; exact Hx).
  destruct (Qeq_bool (Qred x) 0); [apply Qle_refl|].
  assert (E : Qle_bool 0 (Qred x) = true) by (apply Qle_bool_iff; exact Hq).
  rewrite E. unfold round_binary64_pos.
  set (e := binary64_exponent (Qred x)). pose proof (Qpow2_pos e).
  assert (Hs : 0 <= Qred x / Qpow2 e).
  { apply Qle_shift_div_l; [exact H|]. rewrite Qmult_0_l. exact Hq. }
  pose proof (round_half_even_nonneg _ Hs) as Hm.
  apply Qmult_le_0_compat; [|apply Qlt_le_weak; exact H].
  change 0 with (inject_Z 0). rewrite <- Zle_Qle. exact Hm.
Qed.

Lemma round_half_even_int (s : Q) (w : Z) : s == inject_Z w -> round_half_even s = w.
Proof.
  intros H. unfold round_half_even.
  assert (Hf : Qfloor s = w).
  { apply Z.le_antisymm.
    - rewrite <- (Qfloor_Z w). apply Qfloor_resp_le. rewrite H. apply Qle_refl.
    - rewrite <- (Qfloor_Z w) at 1. apply Qfloor_resp_le. rewrite H. apply Qle_refl. }
  rewrite Hf. assert (Qltb (s - inject_Z w) (1 # 2) = true) as ->; [|reflexivity].
  apply Qltb_true. rewrite H. lra.
Qed.

(** Integers below [2^53] are doubles: [fl64] keeps them. *)
Lemma fl64_int (z : Z) : (0 <= z < 2 ^ 53)%Z -> fl64 (inject_Z z) == inject_Z z.
Proof.
  intros Hz. destruct (Z.eq_dec z 0) as [->|Hnz]; [reflexivity|].
  assert (Hpos : (0 < z)%Z) by lia.
  unfold fl64.
  assert (Hred : Qred (inject_Z z) = inject_Z z).
  { apply Qred_identity. simpl. apply Z.gcd_1_r. }
  rewrite Hred.
  assert (E1 : Qeq_bool (inject_Z z) 0 = false).
  { apply not_true_iff_false. intros E. apply Qeq_bool_iff in E.
    unfold Qeq in E. simpl in E. lia. }
  assert (E2 : Qle_bool 0 (inject_Z z) = true).
  { apply Qle_bool_iff. change 0 with (inject_Z 0). rewrite <- Zle_Qle. lia. }
  rewrite E1, E2. unfold round_binary64_pos, binary64_exponent.
  assert (Hk : (qlog2 (inject_Z z) <= 52)%Z).
  { unfold qlog2.
    assert (Hn : Qnum (inject_Z z) = z) by reflexivity.
    assert (Hd : Z.log2 (Zpos (Qden (inject_Z z))) = 0%Z) by reflexivity.
    rewrite ?Hn, ?Hd.
    assert (Z.log2 z < 53)%Z by (apply Z.log2_lt_pow2; lia).
    destruct (Qle_bool (Qpow2 _) _); lia. }
  set (e := Z.max (qlog2 (inject_Z z) - 52) (-1074)).
  assert (He : (e <= 0)%Z) by (unfold e; lia).
  assert (Hpe : Qpow2 e * Qpow2 (- e) == 1).
  { rewrite <- Qpow2_plus. replace (e + - e)%Z with 0%Z by lia. reflexivity. }
  assert (Hs : inject_Z z / Qpow2 e == inject_Z (z * 2 ^ (- e))).
  { rewrite inject_Z_mult, <- Qpow2_Z by lia. pose proof (Qpow2_pos e) as Hp.
    rewrite <- (Qmult_1_r (inject_Z z / Qpow2 e)), <- Hpe. field.
    apply Qnot_eq_sym, Qlt_not_eq. exact Hp. }
  rewrite (round_half_even_int _ _ Hs).
  rewrite inject_Z_mult, <- Qpow2_Z by lia.
  rewrite <- Qmult_assoc, (Qmult_comm (Qpow2 (- e))), Hpe. apply Qmult_1_r.
Qed.

Lemma inject_Z_nat_nonneg (n : nat) : 0 <= inject_Z (Z.of_nat n).
Proof. change 0 with (inject_Z 0). rewrite <- Zle_Qle. lia. Qed.

Lemma fl64_zero : fl64 0 = 0.
Proof. reflexivity. Qed.

Lemma fl64_err_le (x E : Q) :
  0 <= x <= E -> Qabs (fl64 x - x) <= E * Qpow2 (-53) + Qpow2 (-1075).
Proof.
  intros [H0 H1]. pose proof (Qpow2_pos (-53)). pose proof (Qpow2_pos (-1075)).
  destruct (Qle_lt_or_eq 0 x H0) as [Hlt|Heq].
  - eapply Qle_trans; [apply fl64_error; exact Hlt|]. nra.
  - rewrite (fl64_compat x 0) by (symmetry; exact Heq). rewrite fl64_zero.
    assert (Qabs (0 - x) == 0) as -> by (rewrite <- Heq; reflexivity). nra.
Qed.

Lemma Qfloor_unique (a : Q) (m : Z) : inject_Z m <= a -> a < inject_Z m + 1 -> Qfloor a = m.
Proof.
  intros H1 H2. apply Z.le_antisymm.
  - assert (inject_Z (Qfloor a) < inject_Z (m + 1)).
    { rewrite inject_Z_plus. eapply Qle_lt_trans; [apply Qfloor_le|exact H2]. }
    rewrite <- Zlt_Qlt in H. lia.
  - rewrite <- (Qfloor_Z m). apply Qfloor_resp_le. exact H1.
Qed.

Lemma fixed_loop_rounds {S : Type} (step E d : Q) (f : S -> S) :
  0 < step -> 0 <= d -> 2 * d <= step ->
  (forall x, 0 <= x <= E -> Qabs (fl64 x - x) <= d) ->
  forall fuel e s, 0 <= e <= E -> 2 * e < inject_Z (Z.of_nat fuel) * step ->
  exists n, snd (fixed_loop fuel step f e s) = Nat.iter n f s
    /\ 0 <= fst (fixed_loop fuel step f e s) < step
    /\ (n = 0%nat <-> e < step)
    /\ Qabs (e - inject_Z (Z.of_nat n) * step - fst (fixed_loop fuel step f e s))
       <= inject_Z (Z.of_nat n) * d.
Proof.
  intros Hs Hd0 Hd Hfl.
  induction fuel as [|fuel IH]; intros e s He Hf; cbn [fixed_loop].
  - change (inject_Z (Z.of_nat 0)) with 0 in Hf. lra.
  - rewrite Nat2Z.inj_succ, <- Z.add_1_r, inject_Z_plus in Hf.
    change (inject_Z 1) with 1 in Hf.
    pose proof (inject_Z_nat_nonneg fuel) as Hfu.
    destruct (Qle_bool step e) eqn:E1.
    + apply Qle_bool_iff in E1.
      assert (Herr := Hfl (e - step) ltac:(lra)).
      apply Qabs_Qle_condition in Herr.
      assert (He' := fl64_nonneg (e - step) ltac:(lra)).
      set (e' := fl64 (e - step)) in *.
      destruct (IH e' (f s)) as (n & H1 & H2 & H3 & H4); [lra|lra|].
      exists (Datatypes.S n). split; [rewrite H1; symmetry; apply Nat.iter_succ_r|].
      split; [exact H2|]. split; [split; [discriminate|lra]|].
      rewrite Nat2Z.inj_succ, <- Z.add_1_r, inject_Z_plus. change (inject_Z 1) with 1.
      apply Qabs_Qle_condition in H4. apply Qabs_Qle_condition.
      set (q := inject_Z (Z.of_nat n)) in *.
      set (rest := fst (fixed_loop fuel step f e' (f s))) in *.
      split; nra.
    + assert (Hlt : e < step).
      { apply Qnot_le_lt. intros H. apply Qle_bool_iff in H. congruence. }
      exists 0%nat. cbn [fst snd Nat.iter]. split; [reflexivity|]. split; [lra|].
      split; [tauto|]. change (inject_Z (Z.of_nat 0)) with 0.
      setoid_replace (e - 0 * step - e) with 0 by ring. simpl. lra.
Qed.

Lemma fixed_loop_run_spec {S : Type} (step E d : Q) (f : S -> S) (e : Q) (s : S) :
  0 < step -> 0 <= d -> 2 * d <= step ->
  (forall x, 0 <= x <= E -> Qabs (fl64 x - x) <= d) ->
  0 <= e <= E ->
  exists n, snd (fixed_loop_run step f e s) = Nat.iter n f s
    /\ 0 <= fst (fixed_loop_run step f e s) < step
    /\ (n = 0%nat <-> e < step)
    /\ Qabs (e - inject_Z (Z.of_nat n) * step - fst (fixed_loop_run step f e s))
       <= inject_Z (Z.of_nat n) * d.
Proof.
  intros Hs Hd0 Hd Hfl He. unfold fixed_loop_run.
  apply (fixed_loop_rounds step E d f Hs Hd0 Hd Hfl _ e s He).
  assert (Hdiv : 0 <= 2 * e / step) by (apply Qle_shift_div_l; lra).
  assert (Hk0 : (0 <= Qfloor (2 * e / step))%Z).
  { change 0%Z with (Qfloor 0). apply Qfloor_resp_le. exact Hdiv. }
  replace (Z.of_nat (Z.to_nat (Qfloor (2 * e / step)) + 1))
    with (Qfloor (2 * e / step) + 1)%Z by lia.
  assert (Hmul : 2 * e / step * step == 2 * e)
    by (field; intros H; rewrite H in Hs; discriminate).
  rewrite <- Hmul at 1. apply Qmult_lt_compat_r; [exact Hs|]. apply Qlt_floor.
Qed.

Lemma FIXED_TIME_STEP_loop_error (x : Q) :
  0 <= x <= Qpow2 40 -> Qabs (fl64 x - x) <= Qpow2 (-12).
Proof.
  intros Hx. eapply Qle_trans; [apply (fl64_err_le x (Qpow2 40) Hx)|].
  apply Qle_bool_iff. vm_compute. reflexivity.
Qed.

Lemma FIXED_TIME_STEP_loop_bounds :
  0 < FIXED_TIME_STEP /\ 0 <= Qpow2 (-12) /\ 2 * Qpow2 (-12) <= FIXED_TIME_STEP.
Proof.
  split; [|split]; [| |apply Qle_bool_iff; vm_compute; reflexivity].
  - vm_compute. reflexivity.
  - apply Qlt_le_weak, Qpow2_pos.
Qed.

Lemma pong_offset (l endTime : Q) (r : Z) :
  endTime - l == inject_Z r -> (0 <= r <= 10 ^ 9)%Z ->
  fl64 (endTime - l) == inject_Z r
  /\ ((r mod 100 <> 50)%Z ->
      js_round (fl64 (fl64 (endTime - l) / fl64 (2 * FIXED_TIME_STEP)))
      = js_round (inject_Z r / (2 * (1000 # 60))))
  /\ ((r mod 100 = 50)%Z ->
      js_round (fl64 (fl64 (endTime - l) / fl64 (2 * FIXED_TIME_STEP)))
      = js_round (inject_Z r / (2 * (1000 # 60)))
      \/ js_round (fl64 (fl64 (endTime - l) / fl64 (2 * FIXED_TIME_STEP)))
         = (js_round (inject_Z r / (2 * (1000 # 60))) - 1)%Z).
Proof.
  intros Hr Hb.
  assert (Hrtt : fl64 (endTime - l) == inject_Z r).
  { rewrite (fl64_compat _ _ Hr). apply fl64_int. lia. }
  split; [exact Hrtt|].
  assert (HD : fl64 (2 * FIXED_TIME_STEP) = 4691249611844267 # 140737488355328)
    by (vm_compute; reflexivity).
  rewrite HD.
  assert (Hx : fl64 (endTime - l) / (4691249611844267 # 140737488355328)
               == inject_Z r * (140737488355328 # 4691249611844267)).
  { rewrite Hrtt. reflexivity. }
  rewrite (fl64_compat _ _ Hx).
  assert (HR : 0 <= inject_Z r <= 1000000000).
  { split; [change 0 with (inject_Z 0)|change 1000000000 with (inject_Z (10 ^ 9))];
      rewrite <- Zle_Qle; lia. }
  assert (Herr : Qabs (fl64 (inject_Z r * (140737488355328 # 4691249611844267))
                       - inject_Z r * (140737488355328 # 4691249611844267)) <= 1 # 100000000).
  { eapply Qle_trans;
      [apply (fl64_err_le _ (1000000000 * (140737488355328 # 4691249611844267))); lra|].
    apply Qle_bool_iff. vm_compute. reflexivity. }
  apply Qabs_Qle_condition in Herr.
  set (y := fl64 (inject_Z r * (140737488355328 # 4691249611844267))) in *.
  set (R := inject_Z r) in *.
  unfold js_round.
  assert (Hex : R / (2 * (1000 # 60)) + (1 # 2) == (3 * r + 50) # 100).
  { rewrite (Qmake_Qdiv (3 * r + 50) 100), inject_Z_plus, inject_Z_mult. unfold R.
    change (inject_Z 3) with 3. change (inject_Z 50) with 50.
    change (inject_Z (Zpos 100)) with 100. field. }
  rewrite Hex. change (Qfloor ((3 * r + 50) # 100)) with ((3 * r + 50) / 100)%Z.
  pose proof (Z.div_mod (3 * r + 50) 100 ltac:(lia)) as Hdm.
  pose proof (Z.mod_pos_bound (3 * r + 50) 100 ltac:(lia)) as Hmb.
  set (m := ((3 * r + 50) / 100)%Z) in *.
  set (u := ((3 * r + 50) mod 100)%Z) in *.
  assert (HQ : 3 * R + 50 == 100 * inject_Z m + inject_Z u).
  { assert (H : inject_Z (3 * r + 50) == inject_Z (100 * m + u)) by (rewrite <- Hdm; reflexivity).
    rewrite !inject_Z_plus, !inject_Z_mult in H. exact H. }
  assert (HU : 0 <= inject_Z u <= 99).
  { split; [change 0 with (inject_Z 0)|change 99 with (inject_Z 99)];
      rewrite <- Zle_Qle; lia. }
  assert (Hu : (u = 0 <-> r mod 100 = 50)%Z).
  { pose proof (Z.div_mod r 100 ltac:(lia)). pose proof (Z.mod_pos_bound r 100 ltac:(lia)).
    lia. }
  split.
  - intros Hne. apply Qfloor_unique.
    + assert (1 <= inject_Z u).
      { change 1 with (inject_Z 1). rewrite <- Zle_Qle. lia. }
      lra.
    + lra.
  - intros Heq. assert (Hu0 : u = 0%Z) by (apply Hu; exact Heq).
    rewrite Hu0 in HQ. change (inject_Z 0) with 0 in HQ.
    destruct (Qlt_le_dec (y + (1 # 2)) (inject_Z m)) as [Hlt|Hge].
    + right. assert (Hm1 : inject_Z (m - 1) == inject_Z m - 1).
      { unfold Z.sub. rewrite inject_Z_plus. reflexivity. }
      apply Qfloor_unique; rewrite Hm1; lra.
    + left. apply Qfloor_unique; lra.
Qed.

Lemma step_body_keeps (g : bool) (i : InputData) (b : Body) :
  b_id (step_body g i b) = b_id b /\ b_x (step_body g i b) = b_x b /\
  b_y (step_body g i b) = b_y b /\ b_vy (step_body g i b) = b_vy b.
Proof. unfold step_body; destruct (jump i && g); simpl; auto. Qed.

Lemma drain_all_due (cur : Z) (g : bool) (q : list InputData) :
  Forall (fun i => (tick i <= cur)%Z) q ->
  forall b lpt, snd (fst (drain cur g q b lpt)) = fold_left (fun b i => step_body g i b) q b.
Proof.
  induction 1 as [|i q Hi Hq IH]; intros b lpt; simpl; [reflexivity|].
  apply Z.leb_le in Hi; rewrite Hi. apply IH.
Qed.

Lemma contacts_after_level (b : Body) (gs : list Body) :
  Forall (fun g => (b_id g < b_id b)%nat) gs -> isGrounded_contacts b gs = false.
Proof.
  induction 1 as [|g gs Hg Hgs IH]; simpl; [reflexivity|].
  destruct (collides b g) as [c|] eqn:Hc; [|exact IH].
  unfold collides in Hc.
  destruct (_ && _ && _ && _); [|discriminate].
  assert (Hlt : Nat.ltb (b_id b) (b_id g) = false) by (apply Nat.ltb_ge; lia).
  rewrite Hlt in Hc. injection Hc as <-. simpl.
  assert (Heq : Nat.eqb (b_id b) (b_id g) = false) by (apply Nat.eqb_neq; lia).
  rewrite Heq. exact IH.
Qed.

Lemma Qltb_compat (a a' c c' : Q) : a == a' -> c == c' -> Qltb a c = Qltb a' c'.
Proof.
  intros Ha Hc. unfold Qltb. f_equal.
  destruct (Qle_bool c a) eqn:E1, (Qle_bool c' a') eqn:E2; auto.
  - apply Qle_bool_iff in E1. rewrite Ha, Hc in E1. apply Qle_bool_iff in E1. congruence.
  - apply Qle_bool_iff in E2. rewrite <- Ha, <- Hc in E2. apply Qle_bool_iff in E2. congruence.
Qed.

Lemma query_ray_compat (gs : list Body) (x y0 y1 y1' : Q) :
  y1 == y1' -> query_ray gs x y0 y1 = query_ray gs x y0 y1'.
Proof.
  intros H. unfold query_ray. induction gs as [|g gs IH]; [reflexivity|]. simpl.
  assert (Hg : ray_hit x y0 y1 g = ray_hit x y0 y1' g).
  { unfold ray_hit. rewrite (Qltb_compat (bounds_min_y g) (bounds_min_y g) y1 y1') by easy.
    reflexivity. }
  rewrite Hg, IH. reflexivity.
Qed.

Lemma isGrounded_as_client (b : Body) (gs : list Body) (cs : ClientState) :
  gs <> [] -> Forall (fun g => (b_id g < b_id b)%nat) gs ->
  cs_player cs = Some b -> cs_groundBodies cs = gs ->
  isGrounded b gs = isPlayerGrounded cs.
Proof.
  intros Hne Hids Hp Hg. unfold isGrounded, isPlayerGrounded.
  rewrite (contacts_after_level b gs Hids), Hp, Hg.
  destruct gs as [|g gs']; [congruence|].
  rewrite (query_ray_compat _ _ _ (b_y b + PLAYER_SIZE / 2 + 2) (b_y b + (PLAYER_SIZE / 2 + 2)))
    by (symmetry; apply Qplus_assoc).
  destruct (Nat.ltb 0 _); reflexivity.
Qed.

Lemma isPlayerGrounded_set_player (cs : ClientState) (b b' : Body) :
  cs_player cs = Some b -> b_x b' = b_x b -> b_y b' = b_y b -> b_vy b' = b_vy b ->
  isPlayerGrounded (set_player cs b') = isPlayerGrounded cs.
Proof.
  intros Hp Hx Hy Hvy. unfold isPlayerGrounded. rewrite Hp. simpl.
  rewrite Hx, Hy, Hvy. reflexivity.
Qed.

Lemma client_fold (cmds : list InputData) :
  forall cs b, cs_player cs = Some b ->
  cs_player (fold_left applyInput cmds cs)
  = Some (fold_left (fun b i => step_body (isPlayerGrounded cs) i b) cmds b).
Proof.
  induction cmds as [|i cmds IH]; intros cs b Hp; simpl; [exact Hp|].
  assert (Happ : applyInput cs i = set_player cs (step_body (isPlayerGrounded cs) i b)).
  { unfold applyInput. rewrite Hp. reflexivity. }
  rewrite Happ, (IH _ (step_body (isPlayerGrounded cs) i b)) by reflexivity.
  destruct (step_body_keeps (isPlayerGrounded cs) i b) as (_ & Hx & Hy & Hvy).
  rewrite (isPlayerGrounded_set_player cs b _ Hp Hx Hy Hvy). reflexivity.
Qed.

Lemma sort_by_tick_sorted (cmds : list InputData) :
  ticks_sorted cmds -> sort_by_tick cmds = cmds.
Proof.
  unfold ticks_sorted. induction 1 as [|i cmds Hs IH Hhd]; [reflexivity|].
  simpl. fold (sort_by_tick cmds). rewrite IH.
  destruct Hhd as [|j cmds' Hij]; simpl; [reflexivity|].
  apply Z.leb_le in Hij. rewrite Hij. reflexivity.
Qed.

(** C1 (counterexample): the two step logics do not agree on every command
    sequence.  A command whose tick is above the room's tick counter stays
    queued on the authority, while [applyInput] applies it at once: with
    [{left: true, tick: 5}] at room tick 1 the authority leaves [vx = 0]
    and the client predicts [vx = -5]. *)
Lemma C1_step_logics_differ :
  ~ (forall cur gs b lpt cmds,
        Some (server_input_body cur gs b lpt cmds) = client_input_body gs b cmds).
Proof.
  intros H. specialize (H 1%Z level0 spawn_body 0%Z [mkInput true false false 5]).
  vm_compute in H. discriminate H.
Qed.

(** C1 (amended): for a command sequence in ascending tick order whose
    ticks are all due at the room's (incremented) tick counter, on a
    non-empty level whose bodies were created before the player's body, the
    body after the room's input application (grounded check once, then
    each command) equals the body after the client's [applyInput] on each
    command in order. *)
Theorem C1_step_logics_agree_on_due_commands (cur : Z) (gs : list Body) (b : Body)
    (lpt : Z) (cmds : list InputData) :
  gs <> [] ->
  Forall (fun g => (b_id g < b_id b)%nat) gs ->
  ticks_sorted cmds ->
  Forall (fun i => (tick i <= cur)%Z) cmds ->
  Some (server_input_body cur gs b lpt cmds) = client_input_body gs b cmds.
Proof.
  intros Hne Hids Hsorted Hdue.
  unfold server_input_body, client_input_body.
  rewrite (sort_by_tick_sorted cmds Hsorted).
  rewrite (isGrounded_as_client b gs (mkClient (Some b) gs [] 0 0 0 0 0)) by auto.
  rewrite (client_fold cmds _ b) by reflexivity.
  rewrite <- (drain_all_due cur _ cmds Hdue b lpt).
  destruct (drain _ _ _ _ _) as [[q b'] l]. reflexivity.
Qed.

Lemma C1_step_logics_agree_on_due_commands_witness :
  ([ground0] <> [] /\ Forall (fun g => (b_id g < b_id spawn_body)%nat) [ground0]
   /\ ticks_sorted [mkInput false true false 1; mkInput false false true 1]
   /\ Forall (fun i => (tick i <= 1)%Z) [mkInput false true false 1; mkInput false false true 1])
  /\ Some (server_input_body 1 [ground0] spawn_body 0
             [mkInput false true false 1; mkInput false false true 1])
     = client_input_body [ground0] spawn_body
         [mkInput false true false 1; mkInput false false true 1].
Proof.
  assert (Hne : [ground0] <> []) by discriminate.
  assert (Hids : Forall (fun g => (b_id g < b_id spawn_body)%nat) [ground0])
    by (repeat constructor; simpl; lia).
  assert (Hs : ticks_sorted [mkInput false true false 1; mkInput false false true 1])
    by (repeat constructor; simpl; lia).
  assert (Hd : Forall (fun i => (tick i <= 1)%Z) [mkInput false true false 1; mkInput false false true 1])
    by (repeat constructor; simpl; lia).
  split; [auto|].
  apply (C1_step_logics_agree_on_due_commands 1 [ground0] spawn_body 0 _ Hne Hids Hs Hd).
Defined.

(** The drain loop relation is the [drain] function. *)
Lemma drain_rel_drain (cur : Z) (g : bool) (q : list InputData) (b : Body) (lpt : Z) out :
  drain_rel cur g q b lpt out -> out = drain cur g q b lpt.
Proof.
  induction 1 as [b lpt|input rest b lpt Hfut|input rest b lpt out Hle Hrest IH].
  - reflexivity.
  - simpl. destruct (Z.leb_spec (tick input) cur); [lia|reflexivity].
  - simpl. apply Z.leb_le in Hle. rewrite Hle. exact IH.
Qed.

Lemma drain_drain_rel (cur : Z) (g : bool) (q : list InputData) :
  forall b lpt, drain_rel cur g q b lpt (drain cur g q b lpt).
Proof.
  induction q as [|input rest IH]; intros b lpt; simpl; [constructor|].
  destruct (Z.leb_spec (tick input) cur) as [Hle|Hgt].
  - apply drain_take; [exact Hle|apply IH].
  - apply drain_future. exact Hgt.
Qed.

Lemma player_rel_iff (cur : Z) (gs : list Body) (p p' : Player) :
  player_rel cur gs p p' <-> p' = processPlayer cur gs p.
Proof.
  unfold player_rel, processPlayer. split.
  - intros (q & b & lpt & Hd & ->). apply drain_rel_drain in Hd. rewrite <- Hd. reflexivity.
  - intros ->.
    destruct (drain cur (isGrounded (body p) gs) (sort_by_tick (inputQueue p)) (body p)
                (lastProcessedTick p)) as [[q b] lpt] eqn:Hd.
    exists q, b, lpt. split; [rewrite <- Hd; apply drain_drain_rel|reflexivity].
Qed.

Lemma players_step_iff (cur : Z) (gs : list Body) (ps ps' : list (string * Player)) :
  Forall2 (fun sp sp' => fst sp = fst sp' /\ player_rel cur gs (snd sp) (snd sp')) ps ps'
  <-> ps' = map (fun '(sid, p) => (sid, processPlayer cur gs p)) ps.
Proof.
  revert ps'. induction ps as [|[sid p] ps IH]; intros ps'; split.
  - intros H. inversion H. reflexivity.
  - intros ->. constructor.
  - intros H. inversion H as [|sp1 sp' l1 l' [Hsid Hp] Hrest]; subst.
    destruct sp' as [sid' p']. simpl in *. subst sid'.
    apply player_rel_iff in Hp. subst p'. f_equal. apply IH. exact Hrest.
  - intros ->. constructor.
    + simpl. split; [reflexivity|]. apply player_rel_iff. reflexivity.
    + apply IH. reflexivity.
Qed.

Lemma step_rel_iff engine_update (timeStep : Q) (r r' : Room) :
  step_rel engine_update timeStep r r' <-> r' = fixedTick engine_update timeStep r.
Proof.
  unfold step_rel, fixedTick. split.
  - intros (ps & Hps & ->). apply players_step_iff in Hps. subst ps.
    f_equal. f_equal. f_equal. apply map_ext. intros [sid p]. reflexivity.
  - intros ->. eexists. split; [apply players_step_iff; reflexivity|].
    f_equal. f_equal. f_equal. apply map_ext. intros [sid p]. reflexivity.
Qed.

(** C2: the room's step is deterministic: two runs of the same events
    (input messages and fixed steps, in the same order) from the same room
    state end in the same room state. *)
Theorem C2_room_step_deterministic engine_update (timeStep : Q) (r : Room)
    (evs : list RoomEvent) (r1 r2 : Room) :
  run_rel engine_update timeStep r evs r1 ->
  run_rel engine_update timeStep r evs r2 ->
  r1 = r2.
Proof.
  intros H1. revert r2.
  induction H1 as [r|r sid input evs r' H IH|r ra evs r' Hstep H IH]; intros r2 H2;
    inversion H2; subst.
  - reflexivity.
  - apply IH. assumption.
  - match goal with
    | Hs : step_rel _ _ r ?rb |- _ =>
        apply step_rel_iff in Hs; apply step_rel_iff in Hstep; subst
    end.
    apply IH. assumption.
Qed.

(** [run] computes the run of an event list. *)
Lemma run_rel_run engine_update (timeStep : Q) (evs : list RoomEvent) :
  forall r, run_rel engine_update timeStep r evs (run engine_update timeStep r evs).
Proof.
  induction evs as [|[sid input|] evs IH]; intros r; simpl.
  - constructor.
  - constructor. apply IH.
  - econstructor; [apply step_rel_iff; reflexivity|apply IH].
Qed.

Lemma C2_room_step_deterministic_witness :
  let evs := [EvInput "a" (mkInput true false true 1); EvTick; EvTick] in
  let r1 := run still_engine FIXED_TIME_STEP room0 evs in
  (run_rel still_engine FIXED_TIME_STEP room0 evs r1
   /\ run_rel still_engine FIXED_TIME_STEP room0 evs r1)
  /\ r1 = r1.
Proof.
  intros evs r1.
  assert (H : run_rel still_engine FIXED_TIME_STEP room0 evs r1) by apply run_rel_run.
  split; [split; exact H|].
  exact (C2_room_step_deterministic still_engine FIXED_TIME_STEP room0 evs r1 r1 H H).
Defined.

(** C3 (counterexample): a command arriving late, with a tick below the
    watermark, lowers [lastProcessedTick]: the player of [room9] has
    processed tick 5; an input of tick 3 arrives, and after the next step
    the watermark is 3. *)
Lemma C3_late_command_lowers_watermark :
  option_map lastProcessedTick (players_get "a" (players room9)) = Some 5%Z /\
  option_map lastProcessedTick
    (players_get "a" (players (run still_engine FIXED_TIME_STEP room9
                                  [EvInput "a" (mkInput false false false 3); EvTick])))
  = Some 3%Z.
Proof. split; vm_compute; reflexivity. Qed.

Lemma insert_by_tick_Forall (P : InputData -> Prop) (x : InputData) (l : list InputData) :
  P x -> Forall P l -> Forall P (insert_by_tick x l).
Proof.
  intros Hx Hl. induction Hl as [|y l Hy Hl IH]; simpl; [auto|].
  destruct (Z.leb (tick x) (tick y)); auto.
Qed.

Lemma sort_by_tick_Forall (P : InputData -> Prop) (l : list InputData) :
  Forall P l -> Forall P (sort_by_tick l).
Proof.
  induction 1 as [|x l Hx Hl IH]; simpl; [constructor|].
  apply insert_by_tick_Forall; assumption.
Qed.

(** The watermark after the drain loop is the one before it or the tick of
    a drained input. *)
Lemma drain_lpt_source (cur : Z) (g : bool) (q : list InputData) :
  forall b lpt, snd (drain cur g q b lpt) = lpt
                \/ exists i, In i q /\ snd (drain cur g q b lpt) = tick i.
Proof.
  induction q as [|i q IH]; intros b lpt; simpl; [auto|].
  destruct (Z.leb (tick i) cur); [|auto].
  destruct (IH (if jump i && g
                then applyJump (setVelocity b (velocityX_of i) (b_vy b)) JUMP_FORCE
                else setVelocity b (velocityX_of i) (b_vy b)) (tick i)) as [H|(j & Hj & H)];
    right; [exists i|exists j]; auto.
Qed.

Lemma processPlayer_lpt_mono (cur : Z) (gs : list Body) (p : Player) :
  Forall (fun i => (lastProcessedTick p <= tick i)%Z) (inputQueue p) ->
  (lastProcessedTick p <= lastProcessedTick (processPlayer cur gs p))%Z.
Proof.
  intros Hq. apply sort_by_tick_Forall in Hq. unfold processPlayer.
  destruct (drain_lpt_source cur (isGrounded (body p) gs) (sort_by_tick (inputQueue p))
              (body p) (lastProcessedTick p)) as [H|(i & Hi & H)];
    destruct (drain _ _ _ _ _) as [[q b] lpt]; simpl in *.
  - lia.
  - rewrite Forall_forall in Hq. specialize (Hq i Hi). lia.
Qed.

Lemma writeBackAll_lpt (cur : Z) (sid : string) (ps : list (string * Player)) :
  forall bs, option_map lastProcessedTick (players_get sid (writeBackAll cur ps bs))
             = option_map lastProcessedTick (players_get sid ps).
Proof.
  induction ps as [|[k p] ps IH]; intros [|b bs]; simpl; try reflexivity.
  destruct (String.eqb k sid); [reflexivity|apply IH].
Qed.

Lemma players_get_map (sid : string) (f : Player -> Player) (ps : list (string * Player)) :
  players_get sid (map (fun '(k, p) => (k, f p)) ps) = option_map f (players_get sid ps).
Proof.
  induction ps as [|[k p] ps IH]; simpl; [reflexivity|].
  destruct (String.eqb k sid); [reflexivity|apply IH].
Qed.

Lemma fold_step_body_keeps (g : bool) (cmds : list InputData) :
  forall b, b_x (fold_left (fun b i => step_body g i b) cmds b) = b_x b
            /\ b_y (fold_left (fun b i => step_body g i b) cmds b) = b_y b.
Proof.
  induction cmds as [|i cmds IH]; intros b; simpl; [auto|].
  destruct (IH (step_body g i b)) as [Hx Hy].
  destruct (step_body_keeps g i b) as (_ & Hx' & Hy' & _). split; congruence.
Qed.

(** After a reconciliation pass the body sits at the blended position:
    replaying the pending inputs changes velocity and force, not position. *)
Lemma reconcile_position (cs : ClientState) (b : Body) (sp : Player) :
  cs_player cs = Some b ->
  let f := lerpFactor_of (distance_sq (b_x b) (b_y b) (p_x sp) (p_y sp)) in
  exists b', cs_player (reconcileWithServer cs sp) = Some b'
             /\ b_x b' = Linear (b_x b) (p_x sp) f /\ b_y b' = Linear (b_y b) (p_y sp) f.
Proof.
  intros Hp f. unfold reconcileWithServer. rewrite Hp. simpl.
  erewrite client_fold by reflexivity.
  eexists. split; [reflexivity|]. apply fold_step_body_keeps.
Qed.

Lemma distance_sq_Linear (x y sx sy f : Q) :
  distance_sq (Linear x sx f) (Linear y sy f) sx sy == (1 - f) * (1 - f) * distance_sq x y sx sy.
Proof. unfold distance_sq, Linear. ring. Qed.

Lemma lerpFactor_of_compat (d d' : Q) : d == d' -> lerpFactor_of d = lerpFactor_of d'.
Proof. intros H. unfold lerpFactor_of. rewrite (Qltb_compat 900 900 d d') by easy. reflexivity. Qed.

(** One pass from a squared distance [d2]: the new squared distance. *)
Lemma reconcile_distance (cs : ClientState) (b : Body) (sp : Player) :
  cs_player cs = Some b ->
  let d2 := distance_sq (b_x b) (b_y b) (p_x sp) (p_y sp) in
  exists b', cs_player (reconcileWithServer cs sp) = Some b'
             /\ distance_sq (b_x b') (b_y b') (p_x sp) (p_y sp)
                == (1 - lerpFactor_of d2) * (1 - lerpFactor_of d2) * d2.
Proof.
  intros Hp d2. destruct (reconcile_position cs b sp Hp) as (b' & Hb' & Hx & Hy).
  exists b'. split; [exact Hb'|]. rewrite Hx, Hy. apply distance_sq_Linear.
Qed.


(** C4 (counterexample): from 40 units, the first pass leaves 20 units,
    but the second pass, at 20 units (not above 30), blends with 0.2 and
    leaves 16 units, not 10. *)
Lemma C4_second_pass_not_halving :
  match cs_player (reconcileWithServer (reconcileWithServer client40 (server40 1)) (server40 2)) with
  | Some b => distance_sq (b_x b) (b_y b) 40 500 == 16 * 16
              /\ ~ (distance_sq (b_x b) (b_y b) 40 500 == 10 * 10)
  | None => False
  end.
Proof. vm_compute. split; [reflexivity|discriminate]. Qed.

(** C4 (amended): when the predicted position is 40 units from the
    authoritative one, a reconciliation pass blends with factor 0.5 and
    leaves 20 units; a subsequent pass against the same authoritative
    position, now 20 units away (not above 30), blends with the low factor
    0.2 and leaves 16 units.  Replaying pending commands does not move the
    body, so this holds whatever the buffer holds. *)
Theorem C4_reconcile_from_40 (cs : ClientState) (b : Body) (sp sp2 : Player) :
  cs_player cs = Some b ->
  distance_sq (b_x b) (b_y b) (p_x sp) (p_y sp) == 40 * 40 ->
  p_x sp2 = p_x sp -> p_y sp2 = p_y sp ->
  exists b1 b2,
    cs_player (reconcileWithServer cs sp) = Some b1
    /\ distance_sq (b_x b1) (b_y b1) (p_x sp) (p_y sp) == 20 * 20
    /\ cs_player (reconcileWithServer (reconcileWithServer cs sp) sp2) = Some b2
    /\ distance_sq (b_x b2) (b_y b2) (p_x sp2) (p_y sp2) == 16 * 16.
Proof.
  intros Hp Hd Hx2 Hy2.
  destruct (reconcile_distance cs b sp Hp) as (b1 & Hb1 & Hd1).
  rewrite (lerpFactor_of_compat _ (40 * 40) Hd) in Hd1.
  assert (Hd1' : distance_sq (b_x b1) (b_y b1) (p_x sp) (p_y sp) == 20 * 20).
  { rewrite Hd1, Hd. reflexivity. }
  destruct (reconcile_distance (reconcileWithServer cs sp) b1 sp2 Hb1) as (b2 & Hb2 & Hd2).
  rewrite Hx2, Hy2 in Hd2 |- *.
  rewrite (lerpFactor_of_compat _ (20 * 20) Hd1') in Hd2.
  exists b1, b2. repeat split; try assumption.
  rewrite Hd2, Hd1'. reflexivity.
Qed.

Lemma C4_reconcile_from_40_witness :
  (cs_player client40 = Some (mkBody 4 0 500 0 0 0 0 PLAYER_SIZE PLAYER_SIZE)
   /\ distance_sq 0 500 (p_x (server40 1)) (p_y (server40 1)) == 40 * 40
   /\ p_x (server40 2) = p_x (server40 1) /\ p_y (server40 2) = p_y (server40 1))
  /\ exists b1 b2,
    cs_player (reconcileWithServer client40 (server40 1)) = Some b1
    /\ distance_sq (b_x b1) (b_y b1) (p_x (server40 1)) (p_y (server40 1)) == 20 * 20
    /\ cs_player (reconcileWithServer (reconcileWithServer client40 (server40 1)) (server40 2)) = Some b2
    /\ distance_sq (b_x b2) (b_y b2) (p_x (server40 2)) (p_y (server40 2)) == 16 * 16.
Proof.
  assert (Hd : distance_sq 0 500 (p_x (server40 1)) (p_y (server40 1)) == 40 * 40)
    by (vm_compute; reflexivity).
  split; [repeat split; try reflexivity; exact Hd|].
  exact (C4_reconcile_from_40 client40 _ (server40 1) (server40 2) eq_refl Hd eq_refl eq_refl).
Defined.

(** The drain loop applies exactly [drained], in order, and leaves the rest. *)
Lemma drain_drained (cur : Z) (g : bool) (q : list InputData) :
  forall b lpt,
    snd (fst (drain cur g q b lpt)) = fold_left (fun b i => step_body g i b) (drained cur q) b
    /\ drained cur q ++ fst (fst (drain cur g q b lpt)) = q.
Proof.
  induction q as [|i q IH]; intros b lpt; simpl; [auto|].
  destruct (Z.leb (tick i) cur); simpl; [|auto].
  destruct (IH (step_body g i b) (tick i)) as [H1 H2]. split; [exact H1|]. f_equal. exact H2.
Qed.

(** C5 (counterexample): no input is discarded for a duplicate tick; the
    step drains both inputs of tick 2, so the inputs applied have ticks
    2, 2, 5, 9 rather than 2, 5, 9. *)
Lemma C5_duplicate_tick_not_discarded :
  match players_get "a" (players (run still_engine FIXED_TIME_STEP room8 enqueue_5292)) with
  | Some p => map tick (drained 9 (sort_by_tick (inputQueue p))) = [2; 2; 5; 9]%Z
  | None => False
  end.
Proof. vm_compute. reflexivity. Qed.

(** C5 (amended): enqueuing inputs with ticks [5, 2, 9, 2] keeps all four;
    the next step (room tick 9) sorts them stably and drains all four, in
    the order 2, 2, 5, 9 with the two tick-2 inputs in arrival order:
    the body is the result of applying them in that order, the queue is
    left empty and the watermark is 9. *)
Theorem C5_enqueue_5292_drain_9 :
  let r := run still_engine FIXED_TIME_STEP room8 enqueue_5292 in
  option_map inputQueue (players_get "a" (players r)) = Some [c5; c2a; c9; c2b]
  /\ drained 9 (sort_by_tick [c5; c2a; c9; c2b]) = [c2a; c2b; c5; c9]
  /\ match players_get "a" (players (fixedTick still_engine FIXED_TIME_STEP r)) with
     | Some p =>
         body p = fold_left (fun b i => step_body (isGrounded spawn_body (groundBodies room8)) i b)
                            [c2a; c2b; c5; c9] spawn_body
         /\ inputQueue p = [] /\ lastProcessedTick p = 9%Z
     | None => False
     end.
Proof.
  intros r. vm_compute. repeat split; reflexivity.
Qed.

(** C6 (counterexample): with both [left] and [right] set, the room and
    the client both set the horizontal velocity to [-PLAYER_SPEED], not 0. *)
Lemma C6_left_and_right_not_zero :
  let both := mkInput true true false 1 in
  b_vx (snd (fst (drain 1 true [both] spawn_body 0))) = - PLAYER_SPEED
  /\ ~ (b_vx (snd (fst (drain 1 true [both] spawn_body 0))) == 0)
  /\ option_map b_vx (cs_player (applyInput client40 both)) = Some (- PLAYER_SPEED).
Proof. vm_compute. split; [reflexivity|split; [discriminate|reflexivity]]. Qed.

(** C6 (amended): an applied input sets the horizontal velocity to
    [-PLAYER_SPEED] when [left] is set (whether or not [right] is),
    to [PLAYER_SPEED] when only [right] is set, and to 0 when neither is,
    keeping the vertical velocity; in the room's drain loop and in the
    client's [applyInput] alike. *)
Theorem C6_horizontal_velocity (cur : Z) (g : bool) (input : InputData) (b : Body) (lpt : Z)
    (cs : ClientState) (cb : Body) :
  (tick input <= cur)%Z ->
  cs_player cs = Some cb ->
  let expected := if left input then - PLAYER_SPEED
                  else if right input then PLAYER_SPEED else 0 in
  b_vx (snd (fst (drain cur g [input] b lpt))) = expected
  /\ b_vy (snd (fst (drain cur g [input] b lpt))) = b_vy b
  /\ exists cb', cs_player (applyInput cs input) = Some cb'
                 /\ b_vx cb' = expected /\ b_vy cb' = b_vy cb.
Proof.
  intros Hle Hp expected. simpl. apply Z.leb_le in Hle. rewrite Hle.
  unfold applyInput. rewrite Hp. simpl.
  split; [|split].
  - destruct (jump input && g); reflexivity.
  - destruct (jump input && g); reflexivity.
  - eexists. split; [reflexivity|].
    destruct (jump input && isPlayerGrounded cs); split; reflexivity.
Qed.

Lemma C6_horizontal_velocity_witness :
  ((tick (mkInput true true true 1) <= 1)%Z /\ cs_player client40 = Some (mkBody 4 0 500 0 0 0 0 PLAYER_SIZE PLAYER_SIZE))
  /\ let input := mkInput true true true 1 in
     let expected := if left input then - PLAYER_SPEED
                     else if right input then PLAYER_SPEED else 0 in
     b_vx (snd (fst (drain 1 true [input] spawn_body 0))) = expected
     /\ b_vy (snd (fst (drain 1 true [input] spawn_body 0))) = b_vy spawn_body
     /\ exists cb', cs_player (applyInput client40 input) = Some cb'
                    /\ b_vx cb' = expected /\ b_vy cb' = b_vy (mkBody 4 0 500 0 0 0 0 PLAYER_SIZE PLAYER_SIZE).
Proof.
  assert (H1 : (tick (mkInput true true true 1) <= 1)%Z) by (simpl; lia).
  split; [split; [exact H1|reflexivity]|].
  exact (C6_horizontal_velocity 1 true (mkInput true true true 1) spawn_body 0 client40 _ H1 eq_refl).
Defined.

Lemma insert_by_tick_sorted (x : InputData) (l : list InputData) :
  ticks_sorted l -> ticks_sorted (insert_by_tick x l).
Proof.
  unfold ticks_sorted. induction 1 as [|y l Hl IH Hhd]; simpl.
  - repeat constructor.
  - destruct (Z.leb_spec (tick x) (tick y)) as [Hxy|Hxy].
    + constructor; [constructor; assumption|constructor; exact Hxy].
    + constructor; [exact IH|].
      destruct l as [|z l]; simpl.
      * constructor. lia.
      * inversion Hhd; subst.
        destruct (Z.leb (tick x) (tick z)); constructor; lia.
Qed.

Lemma sort_by_tick_sorted_out (l : list InputData) : ticks_sorted (sort_by_tick l).
Proof.
  induction l as [|x l IH]; simpl; [constructor|]. apply insert_by_tick_sorted. exact IH.
Qed.

(** After the drain loop on a sorted queue, every input left is in the
    future. *)
Lemma drain_rest_future (cur : Z) (g : bool) (q : list InputData) :
  ticks_sorted q ->
  forall b lpt, Forall (fun i => (cur < tick i)%Z) (fst (fst (drain cur g q b lpt))).
Proof.
  intros Hs. apply Sorted_StronglySorted in Hs; [|intros x y z; lia].
  induction Hs as [|i q Hq IH Hall]; intros b lpt; simpl; [constructor|].
  destruct (Z.leb_spec (tick i) cur) as [Hle|Hgt]; [apply IH|].
  simpl. constructor; [exact Hgt|].
  eapply Forall_impl; [|exact Hall]. simpl. intros j Hj. lia.
Qed.

Lemma processPlayer_queue_future (cur : Z) (gs : list Body) (p : Player) :
  Forall (fun i => (cur < tick i)%Z) (inputQueue (processPlayer cur gs p)).
Proof.
  unfold processPlayer.
  pose proof (drain_rest_future cur (isGrounded (body p) gs) (sort_by_tick (inputQueue p))
                (sort_by_tick_sorted_out _) (body p) (lastProcessedTick p)) as H.
  destruct (drain _ _ _ _ _) as [[q b] lpt]. simpl in *.
  unfold cleanup_queue. destruct (Nat.ltb 20 (length q)); [|exact H].
  apply Forall_forall. intros i Hi. apply filter_In in Hi as [Hi _].
  rewrite Forall_forall in H. apply H. exact Hi.
Qed.

Lemma writeBackAll_queue (cur : Z) (sid : string) (ps : list (string * Player)) :
  forall bs, option_map inputQueue (players_get sid (writeBackAll cur ps bs))
             = option_map inputQueue (players_get sid ps).
Proof.
  induction ps as [|[k p] ps IH]; intros [|b bs]; simpl; try reflexivity.
  destruct (String.eqb k sid); [reflexivity|apply IH].
Qed.

(** C7: after a client fixed step in which the input buffer exceeded 100
    entries, every buffered input has a tick above [adjustedTick - 50],
    hence above [currentTick - 50] (the server tick offset is a rounded
    non-negative round-trip time); and after any room step every input
    left in a player's queue has a tick above the room's tick counter,
    hence above [currentTick - 10], whether or not the queue exceeded 20. *)
Theorem C7_queue_bounding (cs : ClientState) (l r j : bool)
    engine_update (timeStep : Q) (room : Room) (sid : string) (p : Player) :
  (0 <= serverTickOffset cs)%Z ->
  (100 < length (inputBuffer cs) + 1)%nat ->
  let cs' := client_fixedTick cs l r j in
  Forall (fun i => (cs_currentTick cs' + serverTickOffset cs' - 50 < tick i)%Z) (inputBuffer cs')
  /\ Forall (fun i => (cs_currentTick cs' - 50 < tick i)%Z) (inputBuffer cs')
  /\ (players_get sid (players (fixedTick engine_update timeStep room)) = Some p ->
      Forall (fun i => (currentTick (fixedTick engine_update timeStep room) - 10 < tick i)%Z)
             (inputQueue p)).
Proof.
  intros Hoff Hlen cs'.
  assert (Hc : Forall (fun i => (cs_currentTick cs' + serverTickOffset cs' - 50 < tick i)%Z)
                      (inputBuffer cs')).
  { unfold cs', client_fixedTick.
    set (cs1 := mkClient _ _ _ _ _ _ _ _).
    assert (Hbuf : inputBuffer (applyInput cs1 (mkInput l r j (cs_currentTick cs + 1 + serverTickOffset cs)))
                   = inputBuffer cs1)
      by (unfold applyInput; destruct (cs_player cs1); reflexivity).
    assert (Hcur : cs_currentTick (applyInput cs1 (mkInput l r j (cs_currentTick cs + 1 + serverTickOffset cs)))
                   = cs_currentTick cs1)
      by (unfold applyInput; destruct (cs_player cs1); reflexivity).
    assert (Hoff' : serverTickOffset (applyInput cs1 (mkInput l r j (cs_currentTick cs + 1 + serverTickOffset cs)))
                    = serverTickOffset cs1)
      by (unfold applyInput; destruct (cs_player cs1); reflexivity).
    rewrite Hbuf. subst cs1. simpl inputBuffer. rewrite length_app. simpl length.
    destruct (Nat.ltb_spec 100 (length (inputBuffer cs) + 1)) as [_|]; [|lia].
    simpl. rewrite Hcur, Hoff'. simpl.
    apply Forall_forall. intros i Hi. apply filter_In in Hi as [_ Hi]. apply Z.ltb_lt in Hi. lia. }
  split; [exact Hc|split].
  - assert (Hoff2 : serverTickOffset cs' = serverTickOffset cs).
    { unfold cs', client_fixedTick, applyInput. simpl.
      destruct (cs_player cs); simpl; destruct (Nat.ltb _ _); reflexivity. }
    eapply Forall_impl; [|exact Hc]. simpl. intros i Hi. lia.
  - intros Hget. unfold fixedTick in *. simpl in *.
    pose proof (writeBackAll_queue (currentTick room + 1) sid
                (map (fun '(sid0, p0) => (sid0, processPlayer (currentTick room + 1) (groundBodies room) p0))
                     (players room))
                (engine_update timeStep (groundBodies room)
                   (map (fun '(_, p0) => body p0)
                      (map (fun '(sid0, p0) => (sid0, processPlayer (currentTick room + 1) (groundBodies room) p0))
                           (players room))))) as H.
    rewrite Hget, players_get_map in H.
    destruct (players_get sid (players room)) as [p0|]; simpl in H; [|discriminate].
    injection H as ->.
    eapply Forall_impl; [|apply processPlayer_queue_future]. simpl. intros i Hi. lia.
Qed.

Lemma C7_queue_bounding_witness :
  let cs := mkClient (Some spawn_body) level0 (repeat (mkInput false false false 5) 100) 60 0 0 0 0 in
  ((0 <= serverTickOffset cs)%Z /\ (100 < length (inputBuffer cs) + 1)%nat)
  /\ let cs' := client_fixedTick cs false true false in
     Forall (fun i => (cs_currentTick cs' + serverTickOffset cs' - 50 < tick i)%Z) (inputBuffer cs')
     /\ Forall (fun i => (cs_currentTick cs' - 50 < tick i)%Z) (inputBuffer cs')
     /\ (players_get "a" (players (fixedTick still_engine FIXED_TIME_STEP room9))
           = Some (mkPlayer 50 500 0 0 10 true 5 [] spawn_body) ->
         Forall (fun i => (currentTick (fixedTick still_engine FIXED_TIME_STEP room9) - 10 < tick i)%Z)
                (inputQueue (mkPlayer 50 500 0 0 10 true 5 [] spawn_body))).
Proof.
  intros cs.
  assert (H1 : (0 <= serverTickOffset cs)%Z) by (simpl; lia).
  assert (H2 : (100 < length (inputBuffer cs) + 1)%nat) by (vm_compute; lia).
  split; [split; assumption|].
  exact (C7_queue_bounding cs false true false still_engine FIXED_TIME_STEP room9 "a"
           (mkPlayer 50 500 0 0 10 true 5 [] spawn_body) H1 H2).
Defined.

Lemma js_round_compat (x y : Q) : x == y -> js_round x = js_round y.
Proof.
  intros H. unfold js_round. apply Z.le_antisymm; apply Qfloor_resp_le; rewrite H; apply Qle_refl.
Qed.

(** C8, refuted: the offset is computed on doubles, where
    [2 * FIXED_TIME_STEP] is 33.333333333333336 rather than 100/3; a round
    trip of 250 ms gives [Math.round(7.499999999999999) = 7], while
    [round(250 / (2 * 1000/60)) = round(7.5) = 8]. *)
Lemma C8_round_trip_250_gives_7 :
  lastPingTime client40 = 0
  /\ serverTickOffset (onPong client40 250) = 7%Z
  /\ js_round (250 / (2 * (1000 # 60))) = 8%Z.
Proof. vm_compute. repeat split; reflexivity. Qed.

(** C8 (amended): on a ["pong"] reply arriving [r] ms after the ping, for an
    integer [r] between 0 and 10^9, [rtt] becomes [r] and the tick offset
    equals [round(r / (2 * 1000/60))] (that is [round(3r/100)]) unless
    [r mod 100 = 50], where it is that value or one less; a round trip of
    100 ms gives the offset 3. *)
Theorem C8_tick_offset (cs : ClientState) (endTime : Q) (r : Z) :
  endTime - lastPingTime cs == inject_Z r -> (0 <= r <= 10 ^ 9)%Z ->
  rtt (onPong cs endTime) == inject_Z r
  /\ ((r mod 100 <> 50)%Z ->
      serverTickOffset (onPong cs endTime) = js_round (inject_Z r / (2 * (1000 # 60))))
  /\ ((r mod 100 = 50)%Z ->
      serverTickOffset (onPong cs endTime) = js_round (inject_Z r / (2 * (1000 # 60)))
      \/ serverTickOffset (onPong cs endTime)
         = (js_round (inject_Z r / (2 * (1000 # 60))) - 1)%Z)
  /\ serverTickOffset (onPong cs (lastPingTime cs + 100)) = 3%Z.
Proof.
  intros Hr Hb. cbn [onPong rtt serverTickOffset].
  destruct (pong_offset (lastPingTime cs) endTime r Hr Hb) as (H1 & H2 & H3).
  split; [exact H1|split; [exact H2|split; [exact H3|]]].
  assert (H100 : lastPingTime cs + 100 - lastPingTime cs == inject_Z 100) by ring.
  destruct (pong_offset (lastPingTime cs) (lastPingTime cs + 100) 100 H100 ltac:(lia))
    as (_ & H4 & _).
  rewrite H4 by discriminate. vm_compute. reflexivity.
Qed.

Lemma C8_tick_offset_witness :
  (250 - lastPingTime client40 == inject_Z 250 /\ (0 <= 250 <= 10 ^ 9)%Z)
  /\ (rtt (onPong client40 250) == inject_Z 250
      /\ ((250 mod 100 <> 50)%Z ->
          serverTickOffset (onPong client40 250) = js_round (inject_Z 250 / (2 * (1000 # 60))))
      /\ ((250 mod 100 = 50)%Z ->
          serverTickOffset (onPong client40 250) = js_round (inject_Z 250 / (2 * (1000 # 60)))
          \/ serverTickOffset (onPong client40 250)
             = (js_round (inject_Z 250 / (2 * (1000 # 60))) - 1)%Z)
      /\ serverTickOffset (onPong client40 (lastPingTime client40 + 100)) = 3%Z).
Proof.
  assert (H1 : 250 - lastPingTime client40 == inject_Z 250) by (vm_compute; reflexivity).
  assert (H2 : (0 <= 250 <= 10 ^ 9)%Z) by lia.
  split; [split; [exact H1|exact H2]|].
  exact (C8_tick_offset client40 250 250 H1 H2).
Defined.

(** C9: an input message from a session with no player entry (its join has
    not completed) leaves the room state unchanged. *)
Theorem C9_input_without_player_dropped (r : Room) (sessionId : string) (input : InputData) :
  players_get sessionId (players r) = None ->
  onMessage0 r sessionId input = r.
Proof. intros H. unfold onMessage0. rewrite H. reflexivity. Qed.

Lemma C9_input_without_player_dropped_witness :
  players_get "b" (players room9) = None
  /\ onMessage0 room9 "b" (mkInput true false true 10) = room9.
Proof.
  assert (H : players_get "b" (players room9) = None) by reflexivity.
  split; [exact H|exact (C9_input_without_player_dropped room9 "b" _ H)].
Defined.

(** C10: [isGrounded] returns [true] for every body whose vertical speed is
    below 0.1, whatever the ground bodies: also a body at rest in mid-air,
    touching no ground body and above every ray. *)
Theorem C10_isGrounded_slow_vertical (b : Body) (gs : list Body) :
  Qabs (b_vy b) < 1 # 10 -> isGrounded b gs = true.
Proof.
  intros H. unfold isGrounded.
  destruct (isGrounded_contacts b gs); [reflexivity|].
  destruct (Nat.ltb 0 _); [reflexivity|].
  unfold Qltb. destruct (Qle_bool (1 # 10) (Qabs (b_vy b))) eqn:E; [|reflexivity].
  apply Qle_bool_iff in E. exfalso. apply (Qlt_not_le _ _ H E).
Qed.


Lemma C10_isGrounded_slow_vertical_witness :
  (Qabs (b_vy apex_body) < 1 # 10
   /\ isGrounded_contacts apex_body [ground0] = false
   /\ query_ray [ground0] (b_x apex_body) (b_y apex_body) (b_y apex_body + PLAYER_SIZE / 2 + 2) = [])
  /\ isGrounded apex_body [ground0] = true.
Proof.
  assert (H : Qabs (b_vy apex_body) < 1 # 10) by (vm_compute; reflexivity).
  split; [split; [exact H|split; vm_compute; reflexivity]|].
  exact (C10_isGrounded_slow_vertical apex_body [ground0] H).
Defined.

(* ------------------------------------------------------------------ *)
(** * Further properties of the room, the client and the shared helpers *)

Lemma writeBackAll_keys (cur : Z) (ps : list (string * Player)) :
  forall bs, map fst (writeBackAll cur ps bs) = map fst ps.
Proof.
  induction ps as [|[k p] ps IH]; intros [|b bs]; simpl; try reflexivity. f_equal. apply IH.
Qed.

(** A room step advances the tick counter by one and keeps the set and
    order of the sessions in the room. *)
Lemma fixedTick_tick_keys engine_update (timeStep : Q) (r : Room) :
  currentTick (fixedTick engine_update timeStep r) = (currentTick r + 1)%Z
  /\ map fst (players (fixedTick engine_update timeStep r)) = map fst (players r).
Proof.
  split; [reflexivity|]. unfold fixedTick. simpl. rewrite writeBackAll_keys.
  rewrite map_map. apply map_ext. intros [k p]. reflexivity.
Qed.

Lemma iter_fixedTick engine_update (timeStep : Q) (n : nat) (r : Room) :
  currentTick (Nat.iter n (fixedTick engine_update timeStep) r) = (currentTick r + Z.of_nat n)%Z
  /\ map fst (players (Nat.iter n (fixedTick engine_update timeStep) r)) = map fst (players r).
Proof.
  induction n as [|n [IH1 IH2]]; [simpl; split; [lia|reflexivity]|].
  rewrite Nat.iter_succ.
  destruct (fixedTick_tick_keys engine_update timeStep (Nat.iter n (fixedTick engine_update timeStep) r))
    as [H1 H2].
  rewrite H1, H2, IH1, IH2. split; [lia|reflexivity].
Qed.

(** The simulation interval: with the accumulated time
    [total = elapsedTime + deltaTime] (a double) between 0 and 2^40 ms, the
    callback runs [n] room steps, advancing the tick counter by [n] and
    keeping the sessions; no step runs exactly when [total < FIXED_TIME_STEP];
    the carried-over remainder lies in [[0, FIXED_TIME_STEP)] and differs
    from [total - n * FIXED_TIME_STEP] by at most [n * 2^-12] (the rounding
    of the subtractions), so [n] is [floor(total / FIXED_TIME_STEP)] up to
    those errors. *)
Theorem simulationInterval_runs_due_ticks engine_update (elapsedTime : Q) (r : Room) (deltaTime : Q) :
  0 <= fl64 (elapsedTime + deltaTime) <= Qpow2 40 ->
  let total := fl64 (elapsedTime + deltaTime) in
  let '(rest, r') := simulationInterval engine_update elapsedTime r deltaTime in
  exists n : nat,
    r' = Nat.iter n (fixedTick engine_update FIXED_TIME_STEP) r
    /\ currentTick r' = (currentTick r + Z.of_nat n)%Z
    /\ map fst (players r') = map fst (players r)
    /\ 0 <= rest < FIXED_TIME_STEP
    /\ (n = 0%nat <-> total < FIXED_TIME_STEP)
    /\ Qabs (total - inject_Z (Z.of_nat n) * FIXED_TIME_STEP - rest)
       <= inject_Z (Z.of_nat n) * Qpow2 (-12).
Proof.
  intros He total. unfold simulationInterval. fold total.
  destruct FIXED_TIME_STEP_loop_bounds as (Hs & Hd0 & Hd).
  destruct (fixed_loop_run_spec FIXED_TIME_STEP (Qpow2 40) (Qpow2 (-12))
              (fixedTick engine_update FIXED_TIME_STEP) total r Hs Hd0 Hd
              FIXED_TIME_STEP_loop_error He) as (n & H1 & H2 & H3 & H4).
  destruct (fixed_loop_run _ _ _ _) as [rest r'] eqn:E. simpl in H1, H2, H4. subst r'.
  destruct (iter_fixedTick engine_update FIXED_TIME_STEP n r) as [H5 H6].
  exists n. repeat split; try assumption; apply H2 || apply H3.
Qed.

(** A round of 50 ms runs two room steps, not three: the double
    [50 - FIXED_TIME_STEP - FIXED_TIME_STEP] is just below the step. *)
Lemma simulationInterval_runs_due_ticks_witness :
  (0 <= fl64 (0 + 50) <= Qpow2 40)
  /\ (let total := fl64 (0 + 50) in
      let '(rest, r') := simulationInterval still_engine 0 room0 50 in
      exists n : nat,
        r' = Nat.iter n (fixedTick still_engine FIXED_TIME_STEP) room0
        /\ currentTick r' = (currentTick room0 + Z.of_nat n)%Z
        /\ map fst (players r') = map fst (players room0)
        /\ 0 <= rest < FIXED_TIME_STEP
        /\ (n = 0%nat <-> total < FIXED_TIME_STEP)
        /\ Qabs (total - inject_Z (Z.of_nat n) * FIXED_TIME_STEP - rest)
           <= inject_Z (Z.of_nat n) * Qpow2 (-12))
  /\ currentTick (snd (simulationInterval still_engine 0 room0 50)) = (currentTick room0 + 2)%Z.
Proof.
  assert (H : 0 <= fl64 (0 + 50) <= Qpow2 40).
  { split; apply Qle_bool_iff; vm_compute; reflexivity. }
  split; [exact H|split; [exact (simulationInterval_runs_due_ticks still_engine 0 room0 50 H)|]].
  vm_compute. reflexivity.
Defined.

Lemma client_fixedTick_tick (cs : ClientState) (l r j : bool) :
  cs_currentTick (client_fixedTick cs l r j) = (cs_currentTick cs + 1)%Z.
Proof.
  unfold client_fixedTick, applyInput. simpl.
  destruct (cs_player cs); simpl; destruct (Nat.ltb _ _); reflexivity.
Qed.

Lemma iter_client_fixedTick (cs : ClientState) (l r j : bool) (n : nat) :
  cs_currentTick (Nat.iter n (fun c => client_fixedTick c l r j) cs)
  = (cs_currentTick cs + Z.of_nat n)%Z.
Proof.
  induction n as [|n IH]; [simpl; lia|]. rewrite Nat.iter_succ, client_fixedTick_tick, IH. lia.
Qed.

(** The client's [update]: before the local player exists nothing runs;
    afterwards, with the accumulated time [total = elapsedTime + delta] (a
    double) between 0 and 2^40 ms, [n] client ticks run, the client tick
    counter advancing by [n]; none runs exactly when
    [total < FIXED_TIME_STEP]; the remainder left for the next frame lies in
    [[0, FIXED_TIME_STEP)] and differs from [total - n * FIXED_TIME_STEP] by
    at most [n * 2^-12]. *)
Theorem client_update_runs_due_ticks (elapsedTime : Q) (cs : ClientState) (delta : Q) (l r j : bool) :
  (cs_player cs = None -> client_update elapsedTime cs delta l r j = (elapsedTime, cs))
  /\ (forall b, cs_player cs = Some b -> 0 <= fl64 (elapsedTime + delta) <= Qpow2 40 ->
      let total := fl64 (elapsedTime + delta) in
      let '(rest, cs') := client_update elapsedTime cs delta l r j in
      exists n : nat,
        cs' = Nat.iter n (fun c => client_fixedTick c l r j) cs
        /\ cs_currentTick cs' = (cs_currentTick cs + Z.of_nat n)%Z
        /\ 0 <= rest < FIXED_TIME_STEP
        /\ (n = 0%nat <-> total < FIXED_TIME_STEP)
        /\ Qabs (total - inject_Z (Z.of_nat n) * FIXED_TIME_STEP - rest)
           <= inject_Z (Z.of_nat n) * Qpow2 (-12)).
Proof.
  split; [intros H; unfold client_update; rewrite H; reflexivity|].
  intros b Hb He total. unfold client_update. rewrite Hb. fold total.
  destruct FIXED_TIME_STEP_loop_bounds as (Hs & Hd0 & Hd).
  destruct (fixed_loop_run_spec FIXED_TIME_STEP (Qpow2 40) (Qpow2 (-12))
              (fun c => client_fixedTick c l r j) total cs Hs Hd0 Hd
              FIXED_TIME_STEP_loop_error He) as (n & H1 & H2 & H3 & H4).
  destruct (fixed_loop_run _ _ _ _) as [rest cs'] eqn:E. simpl in H1, H2, H4. subst cs'.
  exists n. split; [reflexivity|]. split; [apply iter_client_fixedTick|].
  split; [exact H2|split; [exact H3|exact H4]].
Qed.

(** A frame of 50 ms runs two client ticks. *)
Lemma client_update_runs_due_ticks_witness :
  cs_player client40 = Some (mkBody 4 0 500 0 0 0 0 PLAYER_SIZE PLAYER_SIZE)
  /\ (0 <= fl64 (0 + 50) <= Qpow2 40)
  /\ (let total := fl64 (0 + 50) in
      let '(rest, cs') := client_update 0 client40 50 false true false in
      exists n : nat,
        cs' = Nat.iter n (fun c => client_fixedTick c false true false) client40
        /\ cs_currentTick cs' = (cs_currentTick client40 + Z.of_nat n)%Z
        /\ 0 <= rest < FIXED_TIME_STEP
        /\ (n = 0%nat <-> total < FIXED_TIME_STEP)
        /\ Qabs (total - inject_Z (Z.of_nat n) * FIXED_TIME_STEP - rest)
           <= inject_Z (Z.of_nat n) * Qpow2 (-12))
  /\ cs_currentTick (snd (client_update 0 client40 50 false true false))
     = (cs_currentTick client40 + 2)%Z.
Proof.
  assert (H1 : cs_player client40 = Some (mkBody 4 0 500 0 0 0 0 PLAYER_SIZE PLAYER_SIZE))
    by reflexivity.
  assert (H2 : 0 <= fl64 (0 + 50) <= Qpow2 40).
  { split; apply Qle_bool_iff; vm_compute; reflexivity. }
  split; [exact H1|split; [exact H2|split]].
  - exact (proj2 (client_update_runs_due_ticks 0 client40 50 false true false) _ H1 H2).
  - vm_compute. reflexivity.
Defined.

Lemma players_get_set_same (sid : string) (p : Player) (ps : list (string * Player)) :
  players_get sid (players_set sid p ps) = Some p.
Proof.
  induction ps as [|[k q] ps IH]; simpl; [rewrite String.eqb_refl; reflexivity|].
  destruct (String.eqb k sid) eqn:E; simpl; rewrite E; [reflexivity|exact IH].
Qed.

Lemma players_get_set_other (sid k : string) (p : Player) (ps : list (string * Player)) :
  k <> sid -> players_get k (players_set sid p ps) = players_get k ps.
Proof.
  intros Hk. induction ps as [|[k' q] ps IH]; simpl.
  - destruct (String.eqb_spec sid k); [congruence|reflexivity].
  - destruct (String.eqb_spec k' sid) as [->|Hne]; simpl.
    + destruct (String.eqb_spec sid k); [congruence|reflexivity].
    + destruct (String.eqb k' k); [reflexivity|exact IH].
Qed.

Lemma players_set_keys_fresh (sid : string) (p : Player) (ps : list (string * Player)) :
  players_get sid ps = None -> map fst (players_set sid p ps) = map fst ps ++ [sid].
Proof.
  induction ps as [|[k q] ps IH]; simpl; [reflexivity|].
  destruct (String.eqb k sid); [discriminate|]. intros H. simpl. f_equal. exact (IH H).
Qed.

Lemma players_get_delete_same (sid : string) (ps : list (string * Player)) :
  players_get sid (players_delete sid ps) = None.
Proof.
  induction ps as [|[k q] ps IH]; simpl; [reflexivity|].
  destruct (String.eqb k sid) eqn:E; simpl; [exact IH|]. rewrite E. exact IH.
Qed.

Lemma players_get_delete_other (sid k : string) (ps : list (string * Player)) :
  k <> sid -> players_get k (players_delete sid ps) = players_get k ps.
Proof.
  intros Hk. induction ps as [|[k' q] ps IH]; simpl; [reflexivity|].
  destruct (String.eqb_spec k' sid) as [->|Hne]; simpl.
  - destruct (String.eqb_spec sid k); [congruence|exact IH].
  - destruct (String.eqb k' k); [reflexivity|exact IH].
Qed.

Lemma players_delete_absent (sid : string) (ps : list (string * Player)) :
  players_get sid ps = None -> players_delete sid ps = ps.
Proof.
  induction ps as [|[k q] ps IH]; simpl; [reflexivity|].
  destruct (String.eqb k sid); [discriminate|]. intros H. simpl. f_equal. exact (IH H).
Qed.

Lemma players_delete_set (sid : string) (p : Player) (ps : list (string * Player)) :
  players_delete sid (players_set sid p ps) = players_delete sid ps.
Proof.
  induction ps as [|[k q] ps IH]; simpl; [rewrite String.eqb_refl; reflexivity|].
  destruct (String.eqb k sid) eqn:E; simpl; rewrite E; simpl; [reflexivity|]. f_equal. exact IH.
Qed.

Lemma players_get_update_same (sid : string) (f : Player -> Player) (ps : list (string * Player)) :
  players_get sid (players_update sid f ps) = option_map f (players_get sid ps).
Proof.
  induction ps as [|[k q] ps IH]; simpl; [reflexivity|].
  destruct (String.eqb k sid) eqn:E; simpl; rewrite E; [reflexivity|exact IH].
Qed.

Lemma players_get_update_other (sid k : string) (f : Player -> Player) (ps : list (string * Player)) :
  k <> sid -> players_get k (players_update sid f ps) = players_get k ps.
Proof.
  intros Hk. induction ps as [|[k' q] ps IH]; simpl; [reflexivity|].
  destruct (String.eqb_spec k' sid) as [->|Hne]; simpl.
  - destruct (String.eqb_spec sid k); [congruence|reflexivity].
  - destruct (String.eqb k' k); [reflexivity|exact IH].
Qed.

Lemma players_update_keys (sid : string) (f : Player -> Player) (ps : list (string * Player)) :
  map fst (players_update sid f ps) = map fst ps.
Proof.
  induction ps as [|[k q] ps IH]; simpl; [reflexivity|].
  destruct (String.eqb k sid); simpl; f_equal; exact IH.
Qed.

(** [onJoin]: the joining session gets a player at the spawn point, at rest,
    not grounded, stamped with the room's current tick, with watermark 0,
    an empty input queue and a fresh [PLAYER_SIZE] body; no other session's
    entry changes, nor the tick counter; a new session is appended after
    the sessions already in the room. *)
Theorem onJoin_spawns_player (r : Room) (sessionId : string) (newId : nat) :
  players_get sessionId (players (onJoin r sessionId newId))
    = Some (mkPlayer SPAWN_X SPAWN_Y 0 0 (currentTick r) false 0 []
                     (mkBody newId SPAWN_X SPAWN_Y 0 0 0 0 PLAYER_SIZE PLAYER_SIZE))
  /\ (forall k, k <> sessionId ->
        players_get k (players (onJoin r sessionId newId)) = players_get k (players r))
  /\ currentTick (onJoin r sessionId newId) = currentTick r
  /\ (players_get sessionId (players r) = None ->
        map fst (players (onJoin r sessionId newId)) = map fst (players r) ++ [sessionId]).
Proof.
  unfold onJoin. simpl. split; [apply players_get_set_same|].
  split; [intros k Hk; apply players_get_set_other; exact Hk|].
  split; [reflexivity|]. apply players_set_keys_fresh.
Qed.

Lemma onJoin_spawns_player_witness :
  ("a"%string <> "b"%string /\ players_get "b" (players room0) = None) /\
  (players_get "b" (players (onJoin room0 "b" 5))
    = Some (mkPlayer SPAWN_X SPAWN_Y 0 0 (currentTick room0) false 0 []
                     (mkBody 5 SPAWN_X SPAWN_Y 0 0 0 0 PLAYER_SIZE PLAYER_SIZE))
   /\ players_get "a" (players (onJoin room0 "b" 5)) = players_get "a" (players room0)
   /\ map fst (players (onJoin room0 "b" 5)) = map fst (players room0) ++ ["b"%string]).
Proof.
  assert (H1 : "a"%string <> "b"%string) by discriminate.
  assert (H2 : players_get "b" (players room0) = None) by reflexivity.
  destruct (onJoin_spawns_player room0 "b" 5) as (Ha & Hb & _ & Hc).
  split; [split; [exact H1|exact H2]|].
  split; [exact Ha|split; [exact (Hb "a"%string H1)|exact (Hc H2)]].
Defined.

(** [onJoin] then [onLeave] of a session that was not in the room gives
    back the room exactly as it was. *)
Theorem onLeave_onJoin_roundtrip (r : Room) (sessionId : string) (newId : nat) :
  players_get sessionId (players r) = None ->
  onLeave (onJoin r sessionId newId) sessionId = r.
Proof.
  intros H. unfold onLeave, onJoin. simpl.
  rewrite players_delete_set, players_delete_absent by exact H.
  destruct r; reflexivity.
Qed.

Lemma onLeave_onJoin_roundtrip_witness :
  players_get "b" (players room0) = None /\ onLeave (onJoin room0 "b" 5) "b" = room0.
Proof.
  assert (H : players_get "b" (players room0) = None) by reflexivity.
  split; [exact H|exact (onLeave_onJoin_roundtrip room0 "b" 5 H)].
Defined.

(** [onLeave]: the leaving session has no entry any more, so every later
    input message from it is dropped; the other sessions keep their
    entries. *)
Theorem onLeave_removes_player (r : Room) (sessionId : string) :
  players_get sessionId (players (onLeave r sessionId)) = None
  /\ (forall input, onMessage0 (onLeave r sessionId) sessionId input = onLeave r sessionId)
  /\ (forall k, k <> sessionId ->
        players_get k (players (onLeave r sessionId)) = players_get k (players r)).
Proof.
  unfold onLeave. simpl. split; [apply players_get_delete_same|].
  split; [intros input; unfold onMessage0; simpl; rewrite players_get_delete_same; reflexivity|].
  intros k Hk. apply players_get_delete_other. exact Hk.
Qed.

Lemma onLeave_removes_player_witness :
  "b"%string <> "a"%string /\
  players_get "b" (players (onLeave (onJoin room0 "b" 5) "a"))
    = players_get "b" (players (onJoin room0 "b" 5)).
Proof.
  assert (H : "b"%string <> "a"%string) by discriminate.
  split; [exact H|exact (proj2 (proj2 (onLeave_removes_player (onJoin room0 "b" 5) "a")) _ H)].
Defined.

(** The input message of a joined session appends the input at the end of
    that session's queue (unsorted: the sort happens in the next step),
    changes nothing else in that player, leaves every other session's
    entry and the order of the sessions unchanged. *)
Theorem onMessage0_appends_input (r : Room) (sessionId : string) (input : InputData) (p : Player) :
  players_get sessionId (players r) = Some p ->
  players_get sessionId (players (onMessage0 r sessionId input))
    = Some (set_inputQueue p (inputQueue p ++ [input]))
  /\ (forall k, k <> sessionId ->
        players_get k (players (onMessage0 r sessionId input)) = players_get k (players r))
  /\ map fst (players (onMessage0 r sessionId input)) = map fst (players r)
  /\ currentTick (onMessage0 r sessionId input) = currentTick r.
Proof.
  intros H. unfold onMessage0. rewrite H. simpl.
  split; [rewrite players_get_update_same, H; reflexivity|].
  split; [intros k Hk; apply players_get_update_other; exact Hk|].
  split; [apply players_update_keys|reflexivity].
Qed.

Lemma onMessage0_appends_input_witness :
  players_get "a" (players room9) = Some (mkPlayer 50 500 0 0 9 true 5 [] spawn_body) /\
  players_get "a" (players (onMessage0 room9 "a" c5))
    = Some (set_inputQueue (mkPlayer 50 500 0 0 9 true 5 [] spawn_body) ([] ++ [c5])).
Proof.
  assert (H : players_get "a" (players room9) = Some (mkPlayer 50 500 0 0 9 true 5 [] spawn_body))
    by reflexivity.
  split; [exact H|exact (proj1 (onMessage0_appends_input room9 "a" c5 _ H))].
Defined.

Lemma insert_by_tick_perm (x : InputData) (l : list InputData) :
  Permutation (x :: l) (insert_by_tick x l).
Proof.
  induction l as [|y l IH]; simpl; [reflexivity|].
  destruct (Z.leb (tick x) (tick y)); [reflexivity|].
  eapply perm_trans; [apply perm_swap|]. apply perm_skip. exact IH.
Qed.

Lemma sort_by_tick_perm (l : list InputData) : Permutation l (sort_by_tick l).
Proof.
  induction l as [|x l IH]; simpl; [reflexivity|].
  eapply perm_trans; [apply perm_skip; exact IH|]. apply insert_by_tick_perm.
Qed.

Lemma filter_all_future (cur : Z) (q : list InputData) :
  Forall (fun i => (cur < tick i)%Z) q ->
  filter (fun i => Z.leb (tick i) cur) q = [] /\ filter (fun i => Z.ltb cur (tick i)) q = q.
Proof.
  induction 1 as [|i q Hi Hq [IH1 IH2]]; simpl; [auto|].
  destruct (Z.leb_spec (tick i) cur); [lia|]. destruct (Z.ltb_spec cur (tick i)); [|lia].
  rewrite IH1, IH2. auto.
Qed.

Lemma drain_split (cur : Z) (g : bool) (q : list InputData) :
  ticks_sorted q ->
  forall b lpt,
    drained cur q = filter (fun i => Z.leb (tick i) cur) q
    /\ fst (fst (drain cur g q b lpt)) = filter (fun i => Z.ltb cur (tick i)) q.
Proof.
  intros Hs. apply Sorted_StronglySorted in Hs; [|intros x y z; lia].
  induction Hs as [|i q Hq IH Hall]; intros b lpt; simpl; [auto|].
  destruct (Z.leb_spec (tick i) cur) as [Hle|Hgt].
  - destruct (Z.ltb_spec cur (tick i)); [lia|].
    destruct (IH (step_body g i b) (tick i)) as [H1 H2]. split; [f_equal; exact H1|exact H2].
  - destruct (Z.ltb_spec cur (tick i)); [|lia].
    assert (Hf : Forall (fun j => (cur < tick j)%Z) q).
    { eapply Forall_impl; [|exact Hall]. simpl. intros j Hj. lia. }
    destruct (filter_all_future cur q Hf) as [H1 H2]. rewrite H1, H2. auto.
Qed.

Lemma drain_lpt (cur : Z) (g : bool) (q : list InputData) :
  forall b lpt, snd (drain cur g q b lpt) = fold_left (fun _ i => tick i) (drained cur q) lpt.
Proof.
  induction q as [|i q IH]; intros b lpt; simpl; [reflexivity|].
  destruct (Z.leb (tick i) cur); simpl; [apply IH|reflexivity].
Qed.

Lemma cleanup_queue_future (cur : Z) (q : list InputData) :
  Forall (fun i => (cur < tick i)%Z) q -> cleanup_queue cur q = q.
Proof.
  intros H. unfold cleanup_queue. destruct (Nat.ltb 20 (length q)); [|reflexivity].
  induction H as [|i q Hi Hq IH]; simpl; [reflexivity|].
  destruct (Z.ltb_spec (cur - 10) (tick i)); [|lia]. f_equal. exact IH.
Qed.

Lemma processPlayer_split (cur : Z) (gs : list Body) (p : Player) :
  let q := sort_by_tick (inputQueue p) in
  let g := isGrounded (body p) gs in
  inputQueue (processPlayer cur gs p) = filter (fun i => Z.ltb cur (tick i)) q
  /\ body (processPlayer cur gs p)
     = fold_left (fun b i => step_body g i b) (filter (fun i => Z.leb (tick i) cur) q) (body p)
  /\ lastProcessedTick (processPlayer cur gs p)
     = fold_left (fun _ i => tick i) (filter (fun i => Z.leb (tick i) cur) q) (lastProcessedTick p)
  /\ p_isGrounded (processPlayer cur gs p) = g.
Proof.
  intros q g. unfold processPlayer. fold g. fold q.
  pose proof (sort_by_tick_sorted_out (inputQueue p)) as Hs. fold q in Hs.
  destruct (drain_split cur g q Hs (body p) (lastProcessedTick p)) as [H1 H2].
  pose proof (drain_rest_future cur g q Hs (body p) (lastProcessedTick p)) as Hf.
  pose proof (proj1 (drain_drained cur g q (body p) (lastProcessedTick p))) as Hb.
  pose proof (drain_lpt cur g q (body p) (lastProcessedTick p)) as Hl.
  destruct (drain cur g q (body p) (lastProcessedTick p)) as [[rest b] lpt]. simpl in *.
  rewrite <- H1. subst rest. split; [apply cleanup_queue_future; exact Hf|].
  split; [exact Hb|split; [exact Hl|reflexivity]].
Qed.

(** The input phase of a room step for one player: the queue is sorted by
    tick (a stable reordering of the same inputs); the inputs due at the
    step's tick are applied to the body in that order, with the grounded
    flag computed once before them; the watermark becomes the tick of the
    last input applied (unchanged when none is due); exactly the future
    inputs stay queued, so the clean-up above 20 entries never drops any. *)
Theorem processPlayer_drains_due (cur : Z) (gs : list Body) (p : Player) :
  let q := sort_by_tick (inputQueue p) in
  let g := isGrounded (body p) gs in
  Permutation (inputQueue p) q /\ ticks_sorted q
  /\ inputQueue (processPlayer cur gs p) = filter (fun i => Z.ltb cur (tick i)) q
  /\ body (processPlayer cur gs p)
     = fold_left (fun b i => step_body g i b) (filter (fun i => Z.leb (tick i) cur) q) (body p)
  /\ lastProcessedTick (processPlayer cur gs p)
     = fold_left (fun _ i => tick i) (filter (fun i => Z.leb (tick i) cur) q) (lastProcessedTick p)
  /\ p_isGrounded (processPlayer cur gs p) = g.
Proof.
  intros q g. split; [apply sort_by_tick_perm|]. split; [apply sort_by_tick_sorted_out|].
  exact (processPlayer_split cur gs p).
Qed.

Lemma writeBackAll_get (cur : Z) (sid : string) (ps : list (string * Player)) :
  forall bs p, players_get sid ps = Some p ->
  exists p', players_get sid (writeBackAll cur ps bs) = Some p'
             /\ inputQueue p' = inputQueue p /\ lastProcessedTick p' = lastProcessedTick p
             /\ p_isGrounded p' = p_isGrounded p.
Proof.
  induction ps as [|[k q] ps IH]; intros [|b bs] p H; simpl in *; try discriminate.
  - destruct (String.eqb k sid); [injection H as <-|]; eauto.
  - destruct (String.eqb k sid); [injection H as <-|]; eauto.
Qed.

(** A room step, for every joined session: afterwards its queue holds
    exactly its inputs with a tick above the new tick counter, in tick
    order, and its watermark is the tick of the last due input applied
    (unchanged when none was due), whatever the physics engine does. *)
Theorem fixedTick_drains_due_inputs engine_update (timeStep : Q) (r : Room)
    (sessionId : string) (p : Player) :
  players_get sessionId (players r) = Some p ->
  let cur := (currentTick r + 1)%Z in
  let q := sort_by_tick (inputQueue p) in
  exists p', players_get sessionId (players (fixedTick engine_update timeStep r)) = Some p'
    /\ inputQueue p' = filter (fun i => Z.ltb cur (tick i)) q
    /\ lastProcessedTick p'
       = fold_left (fun _ i => tick i) (filter (fun i => Z.leb (tick i) cur) q) (lastProcessedTick p)
    /\ p_isGrounded p' = isGrounded (body p) (groundBodies r).
Proof.
  intros H cur q. unfold fixedTick. simpl. fold cur.
  assert (Hm : players_get sessionId (map (fun '(sid, p) => (sid, processPlayer cur (groundBodies r) p))
                                         (players r))
               = Some (processPlayer cur (groundBodies r) p)).
  { rewrite (players_get_map sessionId (processPlayer cur (groundBodies r))), H. reflexivity. }
  destruct (writeBackAll_get cur sessionId _ (engine_update timeStep (groundBodies r)
              (map (fun '(_, p) => body p)
                 (map (fun '(sid, p) => (sid, processPlayer cur (groundBodies r) p)) (players r))))
              _ Hm) as (p' & Hp' & Hq & Hl & Hg).
  destruct (processPlayer_split cur (groundBodies r) p) as (H1 & _ & H3 & H4).
  exists p'. rewrite Hq, Hl, Hg. auto.
Qed.

Lemma fixedTick_drains_due_inputs_witness :
  let p := mkPlayer 50 500 0 0 9 true 5 [c9; mkInput false true false 12; c5] spawn_body in
  let r := mkRoom 9 [("a"%string, p)] ground0 [platform1; platform2] in
  players_get "a" (players r) = Some p /\
  exists p', players_get "a" (players (fixedTick still_engine FIXED_TIME_STEP r)) = Some p'
    /\ inputQueue p' = filter (fun i => Z.ltb 10 (tick i)) (sort_by_tick (inputQueue p))
    /\ lastProcessedTick p'
       = fold_left (fun _ i => tick i) (filter (fun i => Z.leb (tick i) 10) (sort_by_tick (inputQueue p)))
                   (lastProcessedTick p)
    /\ p_isGrounded p' = isGrounded (body p) (groundBodies r).
Proof.
  intros p r. assert (H : players_get "a" (players r) = Some p) by reflexivity.
  split; [exact H|exact (fixedTick_drains_due_inputs still_engine FIXED_TIME_STEP r "a" p H)].
Defined.

Lemma last_cons_indep (a : Z) (l : list Z) (d d' : Z) : last (a :: l) d = last (a :: l) d'.
Proof.
  revert a. induction l as [|b l IH]; intros a; [reflexivity|].
  change (last (a :: b :: l) d) with (last (b :: l) d).
  change (last (a :: b :: l) d') with (last (b :: l) d'). apply IH.
Qed.

Lemma fold_tick_last (l : list InputData) (d : Z) :
  fold_left (fun _ i => tick i) l d = last (map tick l) d.
Proof.
  revert d. induction l as [|i l IH]; intros d; [reflexivity|].
  cbn [fold_left map]. rewrite IH.
  destruct l as [|j l]; [reflexivity|]. cbn [map].
  change (last (tick i :: tick j :: map tick l) d) with (last (tick j :: map tick l) d).
  apply last_cons_indep.
Qed.

(** C3 (amended): in a room step, an entity's [lastProcessedTick] becomes
    the tick of the last input drained (the queued inputs, in tick order,
    whose tick is at most the step's tick), or stays as it was when none is
    drained; so it does not decrease as long as no queued input has a tick
    below the watermark. *)
Theorem C3_watermark_monotone_without_late_commands engine_update (timeStep : Q)
    (r : Room) (sid : string) (p : Player) :
  players_get sid (players r) = Some p ->
  let drainedq := filter (fun i => Z.leb (tick i) (currentTick r + 1))
                         (sort_by_tick (inputQueue p)) in
  exists p', players_get sid (players (fixedTick engine_update timeStep r)) = Some p'
             /\ lastProcessedTick p' = last (map tick drainedq) (lastProcessedTick p)
             /\ (Forall (fun i => (lastProcessedTick p <= tick i)%Z) (inputQueue p) ->
                 (lastProcessedTick p <= lastProcessedTick p')%Z).
Proof.
  intros Hget drainedq. unfold fixedTick. simpl.
  set (cur := (currentTick r + 1)%Z) in *.
  assert (Hm : players_get sid (map (fun '(sid0, p0) => (sid0, processPlayer cur (groundBodies r) p0))
                                     (players r))
               = Some (processPlayer cur (groundBodies r) p)).
  { rewrite (players_get_map sid (processPlayer cur (groundBodies r))), Hget. reflexivity. }
  destruct (writeBackAll_get cur sid _ (engine_update timeStep (groundBodies r)
              (map (fun '(_, p0) => body p0)
                 (map (fun '(sid0, p0) => (sid0, processPlayer cur (groundBodies r) p0)) (players r))))
              _ Hm) as (p' & Hp' & _ & Hl & _).
  exists p'. split; [exact Hp'|]. rewrite Hl. split.
  - destruct (processPlayer_split cur (groundBodies r) p) as (_ & _ & H3 & _).
    rewrite H3. apply fold_tick_last.
  - apply processPlayer_lpt_mono.
Qed.

Lemma C3_watermark_monotone_without_late_commands_witness :
  let p := mkPlayer 50 500 0 0 9 true 5 [mkInput false true false 7] spawn_body in
  let r := mkRoom 9 [("a"%string, p)] ground0 [platform1; platform2] in
  players_get "a" (players r) = Some p
  /\ exists p', players_get "a" (players (fixedTick still_engine FIXED_TIME_STEP r)) = Some p'
       /\ lastProcessedTick p'
          = last (map tick (filter (fun i => Z.leb (tick i) (currentTick r + 1))
                                   (sort_by_tick (inputQueue p)))) (lastProcessedTick p)
       /\ (Forall (fun i => (lastProcessedTick p <= tick i)%Z) (inputQueue p) ->
           (lastProcessedTick p <= lastProcessedTick p')%Z).
Proof.
  intros p r.
  assert (Hg : players_get "a" (players r) = Some p) by reflexivity.
  split; [exact Hg|].
  exact (C3_watermark_monotone_without_late_commands still_engine FIXED_TIME_STEP r "a" p Hg).
Defined.

(** [applyInput] changes only the local body. *)
Lemma applyInput_fields (cs : ClientState) (input : InputData) :
  cs_groundBodies (applyInput cs input) = cs_groundBodies cs
  /\ inputBuffer (applyInput cs input) = inputBuffer cs
  /\ cs_currentTick (applyInput cs input) = cs_currentTick cs
  /\ lastReconciledTick (applyInput cs input) = lastReconciledTick cs
  /\ rtt (applyInput cs input) = rtt cs
  /\ serverTickOffset (applyInput cs input) = serverTickOffset cs
  /\ lastPingTime (applyInput cs input) = lastPingTime cs.
Proof. unfold applyInput. destruct (cs_player cs); repeat split. Qed.

Lemma fold_applyInput_fields (l : list InputData) :
  forall cs,
  cs_groundBodies (fold_left applyInput l cs) = cs_groundBodies cs
  /\ inputBuffer (fold_left applyInput l cs) = inputBuffer cs
  /\ cs_currentTick (fold_left applyInput l cs) = cs_currentTick cs
  /\ rtt (fold_left applyInput l cs) = rtt cs
  /\ serverTickOffset (fold_left applyInput l cs) = serverTickOffset cs
  /\ lastPingTime (fold_left applyInput l cs) = lastPingTime cs.
Proof.
  induction l as [|i l IH]; intros cs; simpl; [repeat split|].
  destruct (IH (applyInput cs i)) as (H1 & H2 & H3 & H4 & H5 & H6).
  destruct (applyInput_fields cs i) as (G1 & G2 & G3 & _ & G5 & G6 & G7).
  rewrite H1, H2, H3, H4, H5, H6, G1, G2, G3, G5, G6, G7. repeat split.
Qed.

(** A client fixed step sends and buffers the input of this tick, stamped
    [currentTick + 1 + serverTickOffset], and applies it to the local body
    at once; the buffer clean-up above 100 entries keeps only inputs newer
    than [adjustedTick - 50], which the new input always is: it is never
    dropped and always ends the buffer. *)
Theorem client_fixedTick_buffers_input (cs : ClientState) (l r j : bool) :
  let adjustedTick := (cs_currentTick cs + 1 + serverTickOffset cs)%Z in
  let payload := mkInput l r j adjustedTick in
  inputBuffer (client_fixedTick cs l r j)
    = (if Nat.ltb 100 (length (inputBuffer cs) + 1)
       then filter (fun i => Z.ltb (adjustedTick - 50) (tick i)) (inputBuffer cs)
       else inputBuffer cs) ++ [payload]
  /\ cs_currentTick (client_fixedTick cs l r j) = (cs_currentTick cs + 1)%Z
  /\ cs_player (client_fixedTick cs l r j)
     = option_map (step_body (isPlayerGrounded cs) payload) (cs_player cs).
Proof.
  intros adj payload. unfold client_fixedTick. fold adj. fold payload.
  set (cs1 := mkClient _ _ _ _ _ _ _ _).
  destruct (applyInput_fields cs1 payload) as (_ & Hbuf & Hcur & _).
  assert (Hpl : cs_player (applyInput cs1 payload)
                = option_map (step_body (isPlayerGrounded cs) payload) (cs_player cs)).
  { unfold applyInput. subst cs1. simpl. destruct (cs_player cs) as [b|] eqn:E; [|reflexivity].
    simpl. unfold isPlayerGrounded at 1. simpl. unfold isPlayerGrounded. rewrite E. reflexivity. }
  rewrite Hbuf. subst cs1. simpl inputBuffer. rewrite length_app. simpl length.
  destruct (Nat.ltb 100 (length (inputBuffer cs) + 1)).
  - simpl. rewrite filter_app. simpl. destruct (Z.ltb_spec (adj - 50) adj); [|lia].
    rewrite Hcur. auto.
  - rewrite Hcur. auto.
Qed.

(** A reconciliation pass with the local body present: the buffer keeps
    exactly the inputs the server has not processed yet (those with a tick
    above the server's watermark), in their order; the reconciled tick
    becomes that watermark; the tick counter, the offset and the round-trip
    time are untouched. *)
Theorem reconcile_prunes_acknowledged (cs : ClientState) (b : Body) (serverPlayer : Player) :
  cs_player cs = Some b ->
  inputBuffer (reconcileWithServer cs serverPlayer)
    = filter (fun input => Z.ltb (lastProcessedTick serverPlayer) (tick input)) (inputBuffer cs)
  /\ lastReconciledTick (reconcileWithServer cs serverPlayer) = lastProcessedTick serverPlayer
  /\ cs_currentTick (reconcileWithServer cs serverPlayer) = cs_currentTick cs
  /\ serverTickOffset (reconcileWithServer cs serverPlayer) = serverTickOffset cs
  /\ rtt (reconcileWithServer cs serverPlayer) = rtt cs.
Proof.
  intros Hp. unfold reconcileWithServer. rewrite Hp. simpl.
  match goal with |- context [fold_left applyInput ?l ?c] =>
    destruct (fold_applyInput_fields l c) as (_ & H2 & H3 & H4 & H5 & _) end.
  rewrite H2, H3, H4, H5. simpl. repeat split.
Qed.

Lemma reconcile_prunes_acknowledged_witness :
  cs_player (set_inputBuffer client40 [c2a; c5; c9])
    = Some (mkBody 4 0 500 0 0 0 0 PLAYER_SIZE PLAYER_SIZE) /\
  inputBuffer (reconcileWithServer (set_inputBuffer client40 [c2a; c5; c9]) (server40 5))
    = filter (fun input => Z.ltb (lastProcessedTick (server40 5)) (tick input)) [c2a; c5; c9].
Proof.
  assert (H : cs_player (set_inputBuffer client40 [c2a; c5; c9])
              = Some (mkBody 4 0 500 0 0 0 0 PLAYER_SIZE PLAYER_SIZE)) by reflexivity.
  split; [exact H|exact (proj1 (reconcile_prunes_acknowledged _ _ (server40 5) H))].
Defined.

(** The local player's [onChange]: the reconciled tick never decreases; it
    becomes the larger of itself and the server's watermark when the local
    body exists, and stays as it is before. *)
Theorem onLocalPlayerChange_watermark (cs : ClientState) (player : Player) :
  lastReconciledTick (onLocalPlayerChange cs player)
    = match cs_player cs with
      | Some _ => Z.max (lastReconciledTick cs) (lastProcessedTick player)
      | None => lastReconciledTick cs
      end
  /\ (lastReconciledTick cs <= lastReconciledTick (onLocalPlayerChange cs player))%Z.
Proof.
  unfold onLocalPlayerChange.
  destruct (cs_player cs) as [b|] eqn:Hp;
    destruct (Z.ltb_spec (lastReconciledTick cs) (lastProcessedTick player)).
  - unfold reconcileWithServer. rewrite Hp. simpl. lia.
  - lia.
  - unfold reconcileWithServer. rewrite Hp. lia.
  - lia.
Qed.

(** A reconciliation pass never moves the local body away from the
    authoritative position: the squared distance is multiplied by 1/4
    (factor 0.5, beyond 30 units) or by 16/25 (factor 0.2, within 30
    units). *)
Theorem reconcile_never_farther (cs : ClientState) (b : Body) (serverPlayer : Player) :
  cs_player cs = Some b ->
  let d2 := distance_sq (b_x b) (b_y b) (p_x serverPlayer) (p_y serverPlayer) in
  exists b', cs_player (reconcileWithServer cs serverPlayer) = Some b'
    /\ distance_sq (b_x b') (b_y b') (p_x serverPlayer) (p_y serverPlayer)
       == (if Qltb 900 d2 then 1 # 4 else 16 # 25) * d2
    /\ distance_sq (b_x b') (b_y b') (p_x serverPlayer) (p_y serverPlayer) <= d2.
Proof.
  intros Hp d2. destruct (reconcile_distance cs b serverPlayer Hp) as (b' & Hb' & Hd).
  fold d2 in Hd. exists b'. split; [exact Hb'|].
  assert (Hnn : 0 <= d2).
  { unfold d2, distance_sq. set (u := p_x serverPlayer - b_x b). set (v := p_y serverPlayer - b_y b).
    nra. }
  unfold lerpFactor_of in Hd. rewrite Hd.
  destruct (Qltb 900 d2); split; try ring; nra.
Qed.

Lemma reconcile_never_farther_witness :
  cs_player client40 = Some (mkBody 4 0 500 0 0 0 0 PLAYER_SIZE PLAYER_SIZE) /\
  exists b', cs_player (reconcileWithServer client40 (server40 1)) = Some b'
    /\ distance_sq (b_x b') (b_y b') 40 500
       == (if Qltb 900 (distance_sq 0 500 40 500) then 1 # 4 else 16 # 25) * distance_sq 0 500 40 500
    /\ distance_sq (b_x b') (b_y b') 40 500 <= distance_sq 0 500 40 500.
Proof.
  assert (H : cs_player client40 = Some (mkBody 4 0 500 0 0 0 0 PLAYER_SIZE PLAYER_SIZE)) by reflexivity.
  split; [exact H|exact (reconcile_never_farther client40 _ (server40 1) H)].
Defined.

(** The ["pong"] handler: when the reply comes no earlier than the ping
    was sent, the round-trip time and the tick offset are non-negative. *)
Theorem onPong_offset_nonneg (cs : ClientState) (endTime : Q) :
  lastPingTime cs <= endTime ->
  0 <= rtt (onPong cs endTime) /\ (0 <= serverTickOffset (onPong cs endTime))%Z.
Proof.
  intros H. cbn [onPong rtt serverTickOffset].
  assert (Hr : 0 <= fl64 (endTime - lastPingTime cs)) by (apply fl64_nonneg; lra).
  split; [exact Hr|].
  unfold js_round. change 0%Z with (Qfloor 0). apply Qfloor_resp_le.
  assert (0 <= fl64 (fl64 (endTime - lastPingTime cs) / fl64 (2 * FIXED_TIME_STEP))).
  { apply fl64_nonneg, Qle_shift_div_l; [vm_compute; reflexivity|]. lra. }
  lra.
Qed.

Lemma onPong_offset_nonneg_witness :
  lastPingTime client40 <= 100 /\
  0 <= rtt (onPong client40 100) /\ (0 <= serverTickOffset (onPong client40 100))%Z.
Proof.
  assert (H : lastPingTime client40 <= 100) by (vm_compute; discriminate).
  split; [exact H|exact (onPong_offset_nonneg client40 100 H)].
Defined.

Lemma length_filter_pos {A : Type} (f : A -> bool) (l : list A) :
  Nat.ltb 0 (length (filter f l)) = existsb f l.
Proof.
  induction l as [|x l IH]; simpl; [reflexivity|].
  destruct (f x); simpl; [reflexivity|exact IH].
Qed.

(** [isGrounded]: a ground body under the downward ray (from the body's
    centre to 2 units below its bottom) always makes it true; and for a
    body created after every ground body (a larger Matter.js id), the
    collision loop never succeeds, since the player is then [bodyA] of
    every pair, so the result is exactly "the ray hits some ground body
    or the vertical speed is below 0.1". *)
Theorem isGrounded_ray_or_slow (b : Body) (gs : list Body) :
  (forall g, In g gs -> ray_hit (b_x b) (b_y b) (b_y b + PLAYER_SIZE / 2 + 2) g = true ->
             isGrounded b gs = true)
  /\ (Forall (fun g => (b_id g < b_id b)%nat) gs ->
      isGrounded b gs
        = existsb (ray_hit (b_x b) (b_y b) (b_y b + PLAYER_SIZE / 2 + 2)) gs
          || Qltb (Qabs (b_vy b)) (1 # 10)).
Proof.
  split.
  - intros g Hin Hhit. unfold isGrounded. destruct (isGrounded_contacts b gs); [reflexivity|].
    unfold query_ray. rewrite length_filter_pos.
    assert (He : existsb (ray_hit (b_x b) (b_y b) (b_y b + PLAYER_SIZE / 2 + 2)) gs = true)
      by (apply existsb_exists; exists g; auto).
    rewrite He. reflexivity.
  - intros Hids. unfold isGrounded. rewrite contacts_after_level by exact Hids.
    unfold query_ray. rewrite length_filter_pos.
    destruct (existsb _ gs); reflexivity.
Qed.

Lemma isGrounded_ray_or_slow_witness :
  (In ground0 level0
   /\ ray_hit (b_x (setPosition spawn_body 50 564)) (b_y (setPosition spawn_body 50 564))
        (b_y (setPosition spawn_body 50 564) + PLAYER_SIZE / 2 + 2) ground0 = true
   /\ Forall (fun g => (b_id g < b_id spawn_body)%nat) level0)
  /\ isGrounded (setPosition spawn_body 50 564) level0 = true
  /\ isGrounded spawn_body level0
     = existsb (ray_hit (b_x spawn_body) (b_y spawn_body) (b_y spawn_body + PLAYER_SIZE / 2 + 2)) level0
       || Qltb (Qabs (b_vy spawn_body)) (1 # 10).
Proof.
  assert (H1 : In ground0 level0) by (left; reflexivity).
  assert (H2 : ray_hit (b_x (setPosition spawn_body 50 564)) (b_y (setPosition spawn_body 50 564))
                 (b_y (setPosition spawn_body 50 564) + PLAYER_SIZE / 2 + 2) ground0 = true)
    by (vm_compute; reflexivity).
  assert (H3 : Forall (fun g => (b_id g < b_id spawn_body)%nat) level0)
    by (repeat constructor; simpl; lia).
  split; [split; [exact H1|split; [exact H2|exact H3]]|].
  split; [exact (proj1 (isGrounded_ray_or_slow (setPosition spawn_body 50 564) level0) ground0 H1 H2)|].
  exact (proj2 (isGrounded_ray_or_slow spawn_body level0) H3).
Defined.


(** The horizontal movement of the room's drain loop and of the client's
    [applyInput] (written inline in both) is the shared
    [applyHorizontalMovement] with [PLAYER_SPEED] and direction -1 when
    [left] is set, else 1 when [right] is set, else 0: both flags set
    move left. *)
Theorem step_body_horizontal_movement (g : bool) (input : InputData) (b : Body) :
  let direction := if left input then -1 else if right input then 1 else 0 in
  let b1 := applyHorizontalMovement b direction PLAYER_SPEED in
  step_body g input b = if jump input && g then applyJump b1 JUMP_FORCE else b1.
Proof.
  unfold step_body, applyHorizontalMovement, velocityX_of.
  destruct (left input), (right input); reflexivity.
Qed.
